(** * Collaborative filtering in JAX: a shallow embedding

    This development embeds the computational cells of the notebook
    [jax_collaborative_filter.ipynb]: the rating predictor
    [calc_people_ratings] and its [vmap], the [loss], the gradient
    [grad(loss)], the training loop and the personalization loop.

    Arrays carry their shape, as a [DeviceArray] does, and the [jnp]
    operations follow numpy's broadcasting rule, so that a shape error is an
    explicit outcome.  The element type is a parameter: the algebraic
    properties are proved over the exact rationals [Qc] (rounding is
    abstracted away), and the behaviour on non-finite values is examined on
    IEEE binary32, the [float32] dtype the notebook computes with. *)

From Stdlib Require Import List Arith Lia Bool ZArith.
From Stdlib Require Import QArith Qcanon Qcabs.
From Stdlib Require Import Floats.SpecFloat.
Import ListNotations.

Close Scope Qc_scope.
Close Scope Q_scope.

Set Implicit Arguments.

(** ** Outcomes of a call: a value, or the shape error that [jnp] raises *)

Inductive error : Type :=
| IncompatibleShapes.   (* TypeError: incompatible shapes for broadcasting *)

Inductive result (A : Type) : Type :=
| Ok (a : A)
| Raise (e : error).

Arguments Ok {A} a.
Arguments Raise {A} e.

Definition bind {A B} (m : result A) (k : A -> result B) : result B :=
  match m with
  | Ok a => k a
  | Raise e => Raise e
  end.

Notation "x <- m ;; k" := (bind m (fun x => k))
  (at level 61, m at next level, right associativity).

Fixpoint mapM {A B} (f : A -> result B) (l : list A) : result (list B) :=
  match l with
  | [] => Ok []
  | x :: r => y <- f x ;; ys <- mapM f r ;; Ok (y :: ys)
  end.

Definition is_ok {A} (m : result A) : bool :=
  match m with Ok _ => true | Raise _ => false end.

(** ** Scalars: the element type of the arrays *)

Class Scalar (T : Type) : Type := {
  lax_zero : T;
  lax_one : T;
  lax_add : T -> T -> T;
  lax_sub : T -> T -> T;
  lax_mul : T -> T -> T;
  lax_div : T -> T -> T;
  lax_neg : T -> T;
  lax_abs : T -> T;
  lax_ge : T -> T -> bool;   (* [x >= y]; false when the two do not compare *)
  lax_of_nat : nat -> T;     (* an array size converted to the dtype *)
  lax_isfinite : T -> bool
}.

(** Exact rationals. *)

Definition Qcge_bool (x y : Qc) : bool :=
  match (x ?= y)%Qc with
  | Lt => false
  | Eq | Gt => true
  end.

Definition Qc_of_nat (n : nat) : Qc := Q2Qc (inject_Z (Z.of_nat n)).

#[global] Instance Scalar_Qc : Scalar Qc := {|
  lax_zero := 0%Qc;
  lax_one := 1%Qc;
  lax_add := Qcplus;
  lax_sub := Qcminus;
  lax_mul := Qcmult;
  lax_div := Qcdiv;
  lax_neg := Qcopp;
  lax_abs := Qcabs;
  lax_ge := Qcge_bool;
  lax_of_nat := Qc_of_nat;
  lax_isfinite := fun _ => true
|}.

(** IEEE 754 binary32, round to nearest even. *)

Module F32.

Definition prec : Z := 24.
Definition emax : Z := 128.

Definition t : Type := spec_float.

Definition zero : t := S754_zero false.
Definition one : t := SFone prec emax.
Definition of_Z (z : Z) : t := binary_normalize prec emax z 0 false.

(** [x >= y]: a NaN compares with nothing, and the two zeros are equal. *)
Definition ge (x y : t) : bool := SFleb y x.

Definition isfinite (x : t) : bool :=
  match x with
  | S754_zero _ | S754_finite _ _ _ => true
  | S754_infinity _ | S754_nan => false
  end.

End F32.

#[global] Instance Scalar_F32 : Scalar F32.t := {|
  lax_zero := F32.zero;
  lax_one := F32.one;
  lax_add := SFadd F32.prec F32.emax;
  lax_sub := SFsub F32.prec F32.emax;
  lax_mul := SFmul F32.prec F32.emax;
  lax_div := SFdiv F32.prec F32.emax;
  lax_neg := SFopp;
  lax_abs := SFabs;
  lax_ge := F32.ge;
  lax_of_nat := fun n => F32.of_Z (Z.of_nat n);
  lax_isfinite := F32.isfinite
|}.

(** ** Arrays *)

(** A one-dimensional array is the list of its elements.  A two-dimensional
    array records its shape next to its rows, so that an array with no row
    still has a number of columns. *)

Record ndarray (T : Type) : Type := mk_ndarray {
  nrows : nat;
  ncols : nat;
  cells : list (list T)
}.

Definition wf_array {T} (a : ndarray T) : Prop :=
  length (cells a) = nrows a /\
  Forall (fun r => length r = ncols a) (cells a).

Definition has_shape {T} (a : ndarray T) (r c : nat) : Prop :=
  wf_array a /\ nrows a = r /\ ncols a = c.

Definition row {T} (i : nat) (a : ndarray T) : list T := nth i (cells a) [].

Definition array_of_rows {T} (c : nat) (rs : list (list T)) : ndarray T :=
  {| nrows := length rs; ncols := c; cells := rs |}.

Fixpoint map2 {A B C} (f : A -> B -> C) (l1 : list A) (l2 : list B) : list C :=
  match l1, l2 with
  | x :: r1, y :: r2 => f x y :: map2 f r1 r2
  | _, _ => []
  end.

(** *** Broadcasting *)

(** Two extents are compatible when they are equal or one of them is 1; the
    result has the other extent. *)
Definition broadcast_shapes (a b : nat) : result nat :=
  if a =? b then Ok a
  else if a =? 1 then Ok b
  else if b =? 1 then Ok a
  else Raise IncompatibleShapes.

(** An axis of extent 1 is repeated to extent [n]; an axis that already has
    extent [n] is left alone. *)
Definition stretch {X} (n : nat) (l : list X) : list X :=
  if length l =? n then l else flat_map (fun x => repeat x n) l.

(** [i % 50 == 0], the test that guards the printing in the two loops. *)
Definition reported (i : nat) : bool := i mod 50 =? 0.

Arguments reported : simpl never.

Section Numpy.

Context {T : Type} `{Scalar T}.

(** [jnp.sum] of a one-dimensional array.  The entries are added from left
    to right; XLA does not fix the order, which matters to rounding only. *)
Definition jnp_sum (l : list T) : T := fold_left lax_add l lax_zero.

(** The transpose of broadcasting, used by the reverse pass: the cotangent
    of a stretched axis is summed back to extent 1. *)
Definition unstretch (n : nat) (l : list T) : list T :=
  if length l =? n then l else [jnp_sum l].

Definition vec_add (x y : list T) : list T := map2 lax_add x y.

Definition sum_rows (c : nat) (rs : list (list T)) : list T :=
  fold_left vec_add rs (repeat lax_zero c).

Definition unstretch_rows (n c : nat) (rs : list (list T)) : list (list T) :=
  if length rs =? n then rs else [sum_rows c rs].

(** [a - b] on two-dimensional arrays. *)
Definition jnp_sub (a b : ndarray T) : result (ndarray T) :=
  r <- broadcast_shapes (nrows a) (nrows b) ;;
  c <- broadcast_shapes (ncols a) (ncols b) ;;
  Ok {| nrows := r; ncols := c;
        cells := map2 (fun x y => map2 lax_sub (stretch c x) (stretch c y))
                      (stretch r (cells a)) (stretch r (cells b)) |}.

(** [a * k] for a scalar [k]. *)
Definition jnp_scale (a : ndarray T) (k : T) : ndarray T :=
  {| nrows := nrows a; ncols := ncols a;
     cells := map (map (fun x => lax_mul x k)) (cells a) |}.

Definition jnp_abs (a : ndarray T) : ndarray T :=
  {| nrows := nrows a; ncols := ncols a;
     cells := map (map lax_abs) (cells a) |}.

(** [jnp.mean] over all the entries: their sum divided by their number. *)
Definition jnp_mean (a : ndarray T) : T :=
  lax_div (jnp_sum (concat (cells a))) (lax_of_nat (nrows a * ncols a)).

(** ** The rating predictor *)

(** [jnp.sum(song * people_preferences, axis = 1)]: [song] is one row of
    features, broadcast against every row of preferences. *)
Definition calc_people_ratings (song : list T)
    (people_preferences : ndarray T) : result (list T) :=
  n <- broadcast_shapes (length song) (ncols people_preferences) ;;
  Ok (map (fun pref => jnp_sum (map2 lax_mul (stretch n song) (stretch n pref)))
          (cells people_preferences)).

(** [vmap(f, in_axes=(0,None))(xs, p)]: [f] is traced once on a row of the
    shape of the rows of [xs], which raises the shape error and fixes the
    shape of the result even when [xs] has no row; the result stacks the
    value of [f] at every row. *)
Definition vmap_0_None (f : list T -> ndarray T -> result (list T))
    (xs p : ndarray T) : result (ndarray T) :=
  traced <- f (repeat lax_zero (ncols xs)) p ;;
  rs <- mapM (fun x => f x p) (cells xs) ;;
  Ok {| nrows := nrows xs; ncols := length traced; cells := rs |}.

Definition predict_all (song_data params : ndarray T) : result (ndarray T) :=
  vmap_0_None calc_people_ratings song_data params.

(** ** The loss *)

(** [jnp.mean(jnp.abs(target - pred))], the second line of [loss]. *)
Definition mean_abs_error (target pred : ndarray T) : result T :=
  d <- jnp_sub target pred ;;
  Ok (jnp_mean (jnp_abs d)).

Definition loss (params target song_data : ndarray T) : result T :=
  pred <- vmap_0_None calc_people_ratings song_data params ;;
  mean_abs_error target pred.

(** ** The gradient *)

(** [grad(loss)] differentiates [loss] in its first argument by a reverse
    pass through the operations of [loss], last one first, each with the
    transposition rule that JAX attaches to it. *)

(** The rule that JAX attaches to [abs] at a real argument [x], for the
    cotangent [g]: [select(x >= 0, g, -g)].  At a zero [x] it hands [g] on,
    and at a NaN, which compares with nothing, [-g]. *)
Definition abs_jvp (g x : T) : T :=
  if lax_ge x lax_zero then g else lax_neg g.

(** [jnp.mean] hands [1/N] to every entry, and [jnp.abs] applies its rule at
    every entry of its argument. *)
Definition mean_abs_vjp (d : ndarray T) : list (list T) :=
  let g := lax_div lax_one (lax_of_nat (nrows d * ncols d)) in
  map (map (fun x => abs_jvp g x)) (cells d).

(** [target - pred] negates the cotangent of [pred], and sums it over the
    axes along which [pred] was stretched. *)
Definition sub_vjp_right (pred : ndarray T) (ct : list (list T))
    : list (list T) :=
  unstretch_rows (nrows pred) (ncols pred)
    (map (fun r => unstretch (ncols pred) (map lax_neg r)) ct).

(** [jnp.sum(song * people_preferences, axis = 1)] for one song: the
    cotangent [g] of the rating of a person reaches each of that person's
    preferences multiplied by the song's feature. *)
Definition calc_people_ratings_vjp (n : nat) (song : list T)
    (people_preferences : ndarray T) (ct : list T) : list (list T) :=
  map (fun g => unstretch (ncols people_preferences)
                  (map (fun s => lax_mul s g) (stretch n song))) ct.

Definition mat_add (x y : list (list T)) : list (list T) := map2 vec_add x y.

Definition zeros (r c : nat) : list (list T) := repeat (repeat lax_zero c) r.

(** [grad(loss)(params, target, song_data)].  The preferences are shared by
    all the songs ([in_axes] is [None] for them), so the contributions of
    the songs are added up. *)
Definition grad_loss (params target song_data : ndarray T)
    : result (ndarray T) :=
  pred <- vmap_0_None calc_people_ratings song_data params ;;
  d <- jnp_sub target pred ;;
  n <- broadcast_shapes (ncols song_data) (ncols params) ;;
  let ct_pred := sub_vjp_right pred (mean_abs_vjp d) in
  Ok {| nrows := nrows params; ncols := ncols params;
        cells := fold_left mat_add
                   (map2 (fun song ct => calc_people_ratings_vjp n song params ct)
                         (cells song_data) ct_pred)
                   (zeros (nrows params) (ncols params)) |}.

(** ** The training loop and the personalization loop *)

Inductive line : Type :=
| IterationLoss (i : nat) (l : T)   (* print('iteration',i,'loss:', l) *)
| IndexLoss (i : nat) (l : T)       (* print(i, l) *)
| FinalLoss (l : T).                (* print('final loss:', l) *)

(** The state of a cell while it runs: the parameter matrix and the text
    printed so far.  The last two fields are not variables of the program:
    [updates] logs, for every execution of the assignment to the
    parameters, the loss and the gradient it was computed from, and
    [rounds] counts the executions of the loop body. *)
Record run_state : Type := {
  st_params : ndarray T;
  stdout : list line;
  updates : list (T * ndarray T);
  rounds : nat
}.

Definition init_state (params : ndarray T) : run_state :=
  {| st_params := params; stdout := []; updates := []; rounds := 0 |}.

Definition print (l : line) (st : run_state) : run_state :=
  {| st_params := st_params st; stdout := stdout st ++ [l];
     updates := updates st; rounds := rounds st |}.

Definition end_round (st : run_state) : run_state :=
  {| st_params := st_params st; stdout := stdout st;
     updates := updates st; rounds := S (rounds st) |}.

(** The three statements that both loops share:
<<
  current_loss = loss(params, target, song_data)
  gradient_loss = grad(loss)(params, target, song_data)
  params = params - gradient_loss * learning_rate
>> *)
Definition gradient_step (learning_rate : T) (target song_data : ndarray T)
    (st : run_state) : result (T * run_state) :=
  current_loss <- loss (st_params st) target song_data ;;
  gradient_loss <- grad_loss (st_params st) target song_data ;;
  new_params <- jnp_sub (st_params st) (jnp_scale gradient_loss learning_rate) ;;
  Ok (current_loss,
      {| st_params := new_params; stdout := stdout st;
         updates := updates st ++ [(current_loss, gradient_loss)];
         rounds := rounds st |}).

Definition training_body (learning_rate : T) (target song_data : ndarray T)
    (i : nat) (st : run_state) : result run_state :=
  r <- gradient_step learning_rate target song_data st ;;
  let '(current_loss, st1) := r in
  if reported i
  then Ok (end_round (print (IterationLoss i current_loss) st1))
  else Ok (end_round st1).

Definition personalization_body (learning_rate : T)
    (target song_data : ndarray T) (i : nat) (st : run_state)
    : result run_state :=
  r <- gradient_step learning_rate target song_data st ;;
  let '(_, st1) := r in
  if reported i
  then r2 <- gradient_step learning_rate target song_data st1 ;;
       let '(current_loss, st2) := r2 in
       Ok (end_round (print (IndexLoss i current_loss) st2))
  else Ok (end_round st1).

(** [for i in l: body]. *)
Fixpoint for_loop (body : nat -> run_state -> result run_state)
    (l : list nat) (st : run_state) : result run_state :=
  match l with
  | [] => Ok st
  | i :: l' => st' <- body i st ;; for_loop body l' st'
  end.

Definition range (n : nat) : list nat := seq 0 n.

(** The training cell: the loop, then the final loss. *)
Definition training_cell (numrounds : nat) (learning_rate : T)
    (people_params song_ratings song_features : ndarray T)
    : result run_state :=
  st <- for_loop (training_body learning_rate song_ratings song_features)
                 (range numrounds) (init_state people_params) ;;
  final <- loss (st_params st) song_ratings song_features ;;
  Ok (print (FinalLoss final) st).

(** [a[0:n, :]]. *)
Definition slice_rows (n : nat) (a : ndarray T) : ndarray T :=
  {| nrows := Nat.min n (nrows a); ncols := ncols a;
     cells := firstn n (cells a) |}.

(** The personalization cell, on the first [new_ratings] songs. *)
Definition personalization_cell (numrounds : nat) (learning_rate : T)
    (new_ratings : nat)
    (new_member_params new_member_ratings song_features : ndarray T)
    : result run_state :=
  let song_data := slice_rows new_ratings song_features in
  st <- for_loop (personalization_body learning_rate new_member_ratings song_data)
                 (range numrounds) (init_state new_member_params) ;;
  final <- loss (st_params st) new_member_ratings song_data ;;
  Ok (print (FinalLoss final) st).

End Numpy.

(** The constants of the notebook. *)
Definition songs : nat := 100.
Definition features : nat := 3.
Definition staff : nat := 5.
Definition numrounds : nat := 600.
Definition learning_rate : Qc := Q2Qc (2 # 10)%Q.
Definition new_members : nat := 2.
Definition new_ratings : nat := 3.

(** A small scenario: three songs with two features, two people. *)

Definition Qz (z : Z) : Qc := Q2Qc (inject_Z z).

Definition example_songs : ndarray Qc :=
  mk_ndarray 3 2 [[Qz 1; Qz 0]; [Qz 0; Qz 1]; [Qz 1; Qz 1]].

Definition example_params : ndarray Qc :=
  mk_ndarray 2 2 [[Qz 2; Qz 3]; [Qz (-1); Qz 4]].

Definition example_ratings : ndarray Qc :=
  mk_ndarray 3 2 [[Qz 1; Qz 0]; [Qz 3; Qz 5]; [Qz 7; Qz 3]].

(** The same scenario with the second person replaced by another one. *)

Definition other_params : ndarray Qc :=
  mk_ndarray 2 2 [[Qz 2; Qz 3]; [Qz 5; Qz (-7)]].

Definition other_ratings : ndarray Qc :=
  mk_ndarray 3 2 [[Qz 1; Qz 4]; [Qz 3; Qz (-2)]; [Qz 7; Qz 0]].

(** Ratings far above what [example_params] predicts. *)

Definition far_ratings : ndarray Qc :=
  mk_ndarray 3 2 [[Qz 10; Qz 20]; [Qz 30; Qz 50]; [Qz 70; Qz 30]].

(** Arrays whose shapes disagree with the scenario: songs with a single
    feature, and a single row of ratings. *)

Definition one_feature_songs : ndarray Qc :=
  mk_ndarray 3 1 [[Qz 2]; [Qz 3]; [Qz 5]].

Definition one_row_ratings : ndarray Qc :=
  mk_ndarray 1 2 [[Qz 1; Qz 0]].

(** A binary32 scenario with one song, one feature and one person, and a
    learning rate of [2^127]. *)

Definition f32_songs : ndarray F32.t := mk_ndarray 1 1 [[F32.of_Z 4]].
Definition f32_ratings : ndarray F32.t := mk_ndarray 1 1 [[F32.of_Z 1]].
Definition f32_params : ndarray F32.t := mk_ndarray 1 1 [[F32.of_Z 0]].
Definition f32_learning_rate : F32.t := F32.of_Z (2 ^ 127).

(** Two binary32 arrays of one row that differ by the smallest positive
    number, [2^-149]. *)

Definition f32_tiny : ndarray F32.t :=
  mk_ndarray 1 2 [[S754_finite false 1 (-149); F32.of_Z 0]].

Definition f32_nothing : ndarray F32.t :=
  mk_ndarray 1 2 [[F32.of_Z 0; F32.of_Z 0]].

(** ** Predicates of the claims *)

(** Two extents that numpy cannot broadcast. *)
Definition incompatible (x y : nat) : Prop := x <> y /\ x <> 1 /\ y <> 1.

(** The extents that a call on [params], [target] and [song_data] compares. *)
Definition shapes_incompatible {T} (params target song_data : ndarray T)
    : Prop :=
  incompatible (ncols song_data) (ncols params) \/
  incompatible (nrows target) (nrows song_data) \/
  incompatible (ncols target) (nrows params).

Section Anomalies.

Context {T : Type} `{Scalar T}.

Definition all_finite (a : ndarray T) : bool :=
  forallb (forallb lax_isfinite) (cells a).

(** An update computed from a loss or a gradient that is not finite. *)
Definition anomaly (u : T * ndarray T) : bool :=
  negb (lax_isfinite (fst u)) || negb (all_finite (snd u)).

(** A run that stops at the first anomaly: it raises, or the update that
    met the anomaly is its last one. *)
Definition stops_at_anomaly (r : result run_state) : Prop :=
  forall st, r = Ok st ->
  forall k, k < length (updates st) ->
    anomaly (nth k (updates st) (lax_zero, mk_ndarray 0 0 [])) = true ->
    length (updates st) = S k.

End Anomalies.

(** ** The specification's formulas *)

(** These definitions follow the words of the specification, over the exact
    rationals and with explicit indices; the claims compare them with what
    the code computes. *)

Module Spec.

Local Open Scope Qc_scope.

(** The sum of [F 0], ..., [F (n-1)]. *)
Fixpoint big_sum (n : nat) (F : nat -> Qc) : Qc :=
  match n with
  | O => 0
  | S m => big_sum m F + F m
  end.

(** The entry of an array at row [i] and column [j]. *)
Definition entry (a : ndarray Qc) (i j : nat) : Qc :=
  nth j (nth i (cells a) nil) 0.

(** The dot product: the elementwise product summed over the features. *)
Fixpoint dot (f p : list Qc) : Qc :=
  match f, p with
  | x :: f', y :: p' => x * y + dot f' p'
  | _, _ => 0
  end.

Definition transpose (a : ndarray Qc) : ndarray Qc :=
  mk_ndarray (ncols a) (nrows a)
    (map (fun j => map (fun i => entry a i j) (seq 0 (nrows a)))
         (seq 0 (ncols a))).

(** The matrix product [x . y]. *)
Definition matmul (x y : ndarray Qc) : ndarray Qc :=
  mk_ndarray (nrows x) (ncols y)
    (map (fun i =>
            map (fun j => big_sum (ncols x) (fun k => entry x i k * entry y k j))
                (seq 0 (ncols y)))
         (seq 0 (nrows x))).

(** The mean of the absolute elementwise differences over all the entries
    of two arrays of [items] rows and [agents] columns. *)
Definition mean_absolute_error (predicted target : ndarray Qc) : Qc :=
  big_sum (nrows target)
    (fun i => big_sum (ncols target)
       (fun u => Qcabs (entry predicted i u - entry target i u)))
  / Qc_of_nat (nrows target * ncols target).

(** [predicted(i,u)], the rating predicted for song [i] and person [u]. *)
Definition predicted (itemFeatures params : ndarray Qc) (i u : nat) : Qc :=
  dot (row i itemFeatures) (row u params).

(** The sign of a number, with [sign(0) = 0]. *)
Definition sign (x : Qc) : Qc :=
  match x ?= 0 with
  | Lt => - (1)
  | Eq => 0
  | Gt => 1
  end.

(** [s(i,u) = sign(predicted(i,u) - target(i,u))], with [sign(0) = 0]. *)
Definition s (params target itemFeatures : ndarray Qc) (i u : nat) : Qc :=
  sign (predicted itemFeatures params i u - entry target i u).

(** [gradient[u] = (1/(Item-count * Agent-count)) . sum_i s(i,u) . itemFeatures[i]],
    feature by feature. *)
Definition gradient (params target itemFeatures : ndarray Qc) : ndarray Qc :=
  mk_ndarray (nrows params) (ncols params)
    (map (fun u =>
            map (fun k =>
                   1 / Qc_of_nat (nrows target * ncols target)
                   * big_sum (nrows target)
                       (fun i => s params target itemFeatures i u
                                 * entry itemFeatures i k))
                (seq 0 (ncols params)))
         (seq 0 (nrows params))).

(** The parameters [params] moved by [delta], entry by entry. *)
Definition moved (params delta : ndarray Qc) : ndarray Qc :=
mk_ndarray (nrows params) (ncols params)
  (map2 (map2 Qcplus) (cells params) (cells delta)).

(** The sum over all the entries of the products of the entries of [x] and
    [y]. *)
Definition inner (x y : ndarray Qc) : Qc :=
big_sum (nrows x)
  (fun u => big_sum (ncols x) (fun k => entry x u k * entry y u k)).

End Spec.

(** ** The closed form of the reverse pass *)

(** The array that [grad(loss)] returns, with explicit indices.  It has the
    shape of the specification's formula; the factor of a residual is the one
    that the rule of [abs] produces. *)

Module Closed.

Local Open Scope Qc_scope.

(** The factor by which the rule [select(x >= 0, g, -g)] multiplies [g]. *)
Definition slope (x : Qc) : Qc := if Qcge_bool x 0 then 1 else - (1).

(** The factor of the residual of song [i] and person [u]: [abs] is applied
    to [target - predicted], so the factor is [-1] where
    [predicted(i,u) <= target(i,u)], a zero residual included, and [1] where
    [predicted(i,u) > target(i,u)]. *)
Definition s (params target itemFeatures : ndarray Qc) (i u : nat) : Qc :=
  - slope (Spec.entry target i u - Spec.predicted itemFeatures params i u).

Definition gradient (params target itemFeatures : ndarray Qc) : ndarray Qc :=
  mk_ndarray (nrows params) (ncols params)
    (map (fun u =>
            map (fun k =>
                   1 / Qc_of_nat (nrows target * ncols target)
                   * Spec.big_sum (nrows target)
                       (fun i => s params target itemFeatures i u
                                 * Spec.entry itemFeatures i k))
                (seq 0 (ncols params)))
         (seq 0 (nrows params))).

End Closed.

(** ** What the operations compute when the shapes agree *)

(** These definitions are not part of the notebook.  They name the values
    that its operations return on arrays of agreeing shapes, where nothing is
    stretched, and the part of a training run that concerns one person. *)

Section Projections.

Context {T : Type} `{Scalar T}.

(** The ratings of all the rows of [ps] for all the rows of [ss]. *)
Definition ratings (ss ps : list (list T)) : list (list T) :=
  map (fun song => map (fun pref => jnp_sum (map2 lax_mul song pref)) ps) ss.

(** The cotangent of the prediction at one entry [x] of [target - pred],
    [n] being the number of entries. *)
Definition entry_cotangent (n : nat) (x : T) : T :=
  lax_neg (abs_jvp (lax_div lax_one (lax_of_nat n)) x).

(** The cotangents that reach the prediction, one row for each song. *)
Definition prediction_cotangents (params target song_data : ndarray T)
    : list (list T) :=
  map (map (entry_cotangent (nrows target * ncols target)))
      (map2 (map2 lax_sub) (cells target)
            (ratings (cells song_data) (cells params))).

Definition rows_shape (a f : nat) (m : list (list T)) : Prop :=
  length m = a /\ Forall (fun x => length x = f) m.

Definition column (u : nat) (a : ndarray T) : list T :=
  map (fun r => nth u r lax_zero) (cells a).

(** The gradient in the preferences [pref] of one person, from the ratings
    [ts] that this person gave to the songs [ss]; [n] is the number of
    entries of the whole rating matrix. *)
Definition agent_gradient (n : nat) (ss : list (list T)) (ts : list T)
    (pref : list T) : list T :=
  fold_left vec_add
    (map2 (fun song t =>
             map (fun s => lax_mul s
                    (entry_cotangent n
                       (lax_sub t (jnp_sum (map2 lax_mul song pref)))))
                 song)
          ss ts)
    (repeat lax_zero (length pref)).

Definition agent_step (n : nat) (lr : T) (ss : list (list T)) (ts : list T)
    (pref : list T) : list T :=
  map2 lax_sub pref (map (fun x => lax_mul x lr) (agent_gradient n ss ts pref)).

(** The update of the parameters by itself, without the loss. *)
Definition descent_step (lr : T) (target song_data params : ndarray T)
    : result (ndarray T) :=
  g <- grad_loss params target song_data ;;
  jnp_sub params (jnp_scale g lr).

(** The default entry when the log of updates is read by position. *)
Definition no_update : T * ndarray T := (lax_zero, mk_ndarray 0 0 []).

Fixpoint iterate (n : nat) (f : ndarray T -> result (ndarray T))
    (p : ndarray T) : result (ndarray T) :=
  match n with
  | 0 => Ok p
  | S n' => p' <- f p ;; iterate n' f p'
  end.

End Projections.

(** ** The other cells of the notebook *)

Section Cells.

Context {T : Type} `{Scalar T}.

(** The simulation of the training ratings:
    [song_ratings = vmap(calc_people_ratings, in_axes=(0,None))(song_features, people_preferences)]. *)
Definition simulate_ratings (song_features people_preferences : ndarray T)
    : result (ndarray T) :=
  vmap_0_None calc_people_ratings song_features people_preferences.

(** The recommendations for the new members:
    [vmap(calc_people_ratings, in_axes=(0,None))(song_features, new_member_params)]. *)
Definition recommend (song_features new_member_params : ndarray T)
    : result (ndarray T) :=
  vmap_0_None calc_people_ratings song_features new_member_params.

(** The check of the learned parameters:
    [people_preferences - people_params]. *)
Definition parameter_error (people_preferences people_params : ndarray T)
    : result (ndarray T) :=
  jnp_sub people_preferences people_params.

(** The loss that a printed line shows. *)
Definition line_loss (l : line) : T :=
  match l with
  | IterationLoss _ x | IndexLoss _ x | FinalLoss x => x
  end.

End Cells.

(** The number of rounds among the first [n] whose loss is printed. *)
Definition reported_rounds (n : nat) : nat :=
  length (filter reported (range n)).

(** The sum of the absolute values of feature [k] over the songs. *)
Definition feature_mass (song_features : ndarray Qc) (k : nat) : Qc :=
  Spec.big_sum (nrows song_features)
    (fun x => Qcabs (Spec.entry song_features x k)).



(** An array of zeros. *)
Definition zero_array (r c : nat) : ndarray Qc :=
  mk_ndarray r c (zeros r c).

(** NaN entries of binary32 arrays. *)
Definition f32_isnan (x : F32.t) : bool :=
  match x with S754_nan => true | _ => false end.

Definition has_nan (l : list F32.t) : bool := existsb f32_isnan l.

(** * Properties *)

(** ** Lists and broadcasting *)


Lemma mapM_total {A B} (f : A -> result B) (g : A -> B) (l : list A) :
  Forall (fun x => f x = Ok (g x)) l -> mapM f l = Ok (map g l).
Proof.
  induction 1 as [|x r Hx _ IH]; simpl; [reflexivity|].
  now rewrite Hx, IH.
Qed.


Lemma map2_length {A B C} (f : A -> B -> C) l1 l2 :
  length (map2 f l1 l2) = Nat.min (length l1) (length l2).
Proof.
  revert l2; induction l1 as [|x r IH]; intros [|y r2]; simpl; auto.
Qed.

Lemma map2_nil_r {A B C} (f : A -> B -> C) l : map2 f l [] = [].
Proof. now destruct l. Qed.

Lemma map2_ext_in {A B C} (f g : A -> B -> C) l1 l2 :
  (forall x y, In x l1 -> In y l2 -> f x y = g x y) ->
  map2 f l1 l2 = map2 g l1 l2.
Proof.
  revert l2; induction l1 as [|x r IH]; intros [|y r2] Hfg; simpl; auto.
  f_equal; [apply Hfg; now left | apply IH; intros; apply Hfg; now right].
Qed.


Lemma map2_map_r {A B B' C} (f : A -> B' -> C) (h : B -> B') l1 l2 :
  map2 f l1 (map h l2) = map2 (fun x y => f x (h y)) l1 l2.
Proof.
  revert l2; induction l1 as [|x r IH]; intros [|y r2]; simpl; auto.
  now rewrite IH.
Qed.

Lemma map_map2 {A B C D} (h : C -> D) (f : A -> B -> C) l1 l2 :
  map h (map2 f l1 l2) = map2 (fun x y => h (f x y)) l1 l2.
Proof.
  revert l2; induction l1 as [|x r IH]; intros [|y r2]; simpl; auto.
  now rewrite IH.
Qed.


Lemma nth_map2 {A B C} (f : A -> B -> C) l1 l2 i d1 d2 d :
  i < length l1 -> i < length l2 ->
  nth i (map2 f l1 l2) d = f (nth i l1 d1) (nth i l2 d2).
Proof.
  revert l2 i; induction l1 as [|x r IH]; intros [|y r2] [|i]; simpl;
    intros H1 H2; try lia; auto.
  apply IH; lia.
Qed.

Lemma map_nth_seq {A} (l : list A) (d : A) :
  map (fun i => nth i l d) (seq 0 (length l)) = l.
Proof.
  induction l as [|x r IH]; simpl; [reflexivity|].
  f_equal. rewrite <- seq_shift, map_map. exact IH.
Qed.

Lemma stretch_same {X} (n : nat) (l : list X) :
  length l = n -> stretch n l = l.
Proof. intros Hl. unfold stretch. now rewrite Hl, Nat.eqb_refl. Qed.


Lemma broadcast_shapes_same (n : nat) : broadcast_shapes n n = Ok n.
Proof. unfold broadcast_shapes. now rewrite Nat.eqb_refl. Qed.

(** The broadcasting rule, as a relation between the two extents. *)
Lemma broadcast_shapes_raises (a b : nat) :
  broadcast_shapes a b = Raise IncompatibleShapes <->
  a <> b /\ a <> 1 /\ b <> 1.
Proof.
  unfold broadcast_shapes.
  destruct (Nat.eqb_spec a b), (Nat.eqb_spec a 1), (Nat.eqb_spec b 1);
    split; intros; try discriminate; try tauto; lia.
Qed.


(** ** The operations on arrays whose shapes agree *)

Section Shaped.

Context {T : Type} `{Scalar T}.

Lemma has_shape_cells (a : ndarray T) r c :
  has_shape a r c ->
  length (cells a) = r /\ Forall (fun x => length x = c) (cells a).
Proof. intros [[Hl Hr] [<- <-]]. auto. Qed.

Lemma has_shape_mk r c (rs : list (list T)) :
  length rs = r -> Forall (fun x => length x = c) rs ->
  has_shape (mk_ndarray r c rs) r c.
Proof. intros Hl Hr. repeat split; simpl; auto. Qed.

Lemma has_shape_eq (a b : ndarray T) r c :
  has_shape a r c -> has_shape b r c -> cells a = cells b -> a = b.
Proof.
  destruct a, b. intros [_ [Hr Hc]] [_ [Hr' Hc']] Hcells. simpl in *.
  congruence.
Qed.

Lemma ratings_shape ss ps :
  Forall (fun x => length x = length ps) (ratings ss ps).
Proof.
  unfold ratings. apply Forall_forall. intros x Hx.
  apply in_map_iff in Hx as [s [<- _]]. now rewrite length_map.
Qed.

Lemma calc_people_ratings_shaped (song : list T) (p : ndarray T) :
  length song = ncols p -> Forall (fun x => length x = ncols p) (cells p) ->
  calc_people_ratings song p =
  Ok (map (fun pref => jnp_sum (map2 lax_mul song pref)) (cells p)).
Proof.
  intros Hs Hp. unfold calc_people_ratings.
  rewrite Hs, broadcast_shapes_same. simpl. f_equal.
  apply map_ext_in. intros pref Hin.
  rewrite Forall_forall in Hp.
  now rewrite !stretch_same by auto.
Qed.

Lemma predict_all_shaped (song_data params : ndarray T) i a f :
  has_shape song_data i f -> has_shape params a f ->
  predict_all song_data params =
  Ok (mk_ndarray i a (ratings (cells song_data) (cells params))).
Proof.
  intros Hs Hp.
  destruct (has_shape_cells Hs) as [Hsl Hsr].
  destruct (has_shape_cells Hp) as [Hpl Hpr].
  destruct Hs as [_ [Hsn Hsc]], Hp as [_ [Hpn Hpc]].
  unfold predict_all, vmap_0_None.
  rewrite calc_people_ratings_shaped;
    [| rewrite repeat_length; congruence | now rewrite Hpc].
  simpl.
  rewrite mapM_total with
    (g := fun song => map (fun pref => jnp_sum (map2 lax_mul song pref))
                          (cells params)).
  - simpl. rewrite length_map, Hpl, Hsn. reflexivity.
  - eapply Forall_impl; [|exact Hsr]. simpl. intros song Hl.
    apply calc_people_ratings_shaped; [congruence | now rewrite Hpc].
Qed.

Lemma predict_all_has_shape (song_data params pred : ndarray T) i a f :
  has_shape song_data i f -> has_shape params a f ->
  predict_all song_data params = Ok pred -> has_shape pred i a.
Proof.
  intros Hs Hp. rewrite (predict_all_shaped Hs Hp). intros [= <-].
  destruct (has_shape_cells Hs) as [Hsl _].
  destruct (has_shape_cells Hp) as [Hpl _].
  apply has_shape_mk.
  - unfold ratings. now rewrite length_map.
  - rewrite <- Hpl. apply ratings_shape.
Qed.

Lemma map2_rows_shape {A B} (f : A -> B -> T) (xs : list (list A))
    (ys : list (list B)) c :
  Forall (fun x => length x = c) xs -> Forall (fun y => length y = c) ys ->
  Forall (fun z => length z = c) (map2 (map2 f) xs ys).
Proof.
  intros Hx; revert ys; induction Hx as [|x xs Hl _ IH];
    intros ys Hy; [constructor|].
  destruct Hy as [|y ys Hly Hy]; simpl; constructor.
  - rewrite map2_length. lia.
  - auto.
Qed.

Lemma jnp_sub_shaped (a b : ndarray T) r c :
  has_shape a r c -> has_shape b r c ->
  jnp_sub a b = Ok (mk_ndarray r c (map2 (map2 lax_sub) (cells a) (cells b))).
Proof.
  intros Ha Hb.
  destruct (has_shape_cells Ha) as [Hal Har].
  destruct (has_shape_cells Hb) as [Hbl Hbr].
  destruct Ha as [_ [Har' Hac']], Hb as [_ [Hbr' Hbc']].
  unfold jnp_sub. rewrite Har', Hac', Hbr', Hbc', !broadcast_shapes_same.
  simpl.
  rewrite !stretch_same by assumption. do 2 f_equal.
  rewrite Forall_forall in Har, Hbr.
  apply map2_ext_in. intros x y Hx Hy.
  now rewrite !stretch_same by auto.
Qed.

Lemma jnp_sub_has_shape (a b d : ndarray T) r c :
  has_shape a r c -> has_shape b r c -> jnp_sub a b = Ok d ->
  has_shape d r c.
Proof.
  intros Ha Hb. rewrite (jnp_sub_shaped Ha Hb). intros [= <-].
  destruct (has_shape_cells Ha) as [Hal Har].
  destruct (has_shape_cells Hb) as [Hbl Hbr].
  apply has_shape_mk.
  - rewrite map2_length. lia.
  - now apply map2_rows_shape.
Qed.

Lemma loss_shaped (params target song_data : ndarray T) i a f :
  has_shape params a f -> has_shape target i a -> has_shape song_data i f ->
  loss params target song_data =
  Ok (lax_div
        (jnp_sum (concat (map (map lax_abs)
           (map2 (map2 lax_sub) (cells target)
                 (ratings (cells song_data) (cells params))))))
        (lax_of_nat (i * a))).
Proof.
  intros Hp Ht Hs. unfold loss, mean_abs_error.
  fold (predict_all song_data params).
  rewrite (predict_all_shaped Hs Hp). simpl.
  assert (Hpred : has_shape
            (mk_ndarray i a (ratings (cells song_data) (cells params))) i a).
  { apply (predict_all_has_shape Hs Hp), (predict_all_shaped Hs Hp). }
  rewrite (jnp_sub_shaped Ht Hpred). reflexivity.
Qed.

Lemma unstretch_same (n : nat) (l : list T) :
  length l = n -> unstretch n l = l.
Proof. intros Hl. unfold unstretch. now rewrite Hl, Nat.eqb_refl. Qed.

Lemma unstretch_rows_same (n c : nat) (rs : list (list T)) :
  length rs = n -> unstretch_rows n c rs = rs.
Proof. intros Hl. unfold unstretch_rows. now rewrite Hl, Nat.eqb_refl. Qed.

Lemma grad_loss_shaped (params target song_data : ndarray T) i a f :
  has_shape params a f -> has_shape target i a -> has_shape song_data i f ->
  grad_loss params target song_data =
  Ok (mk_ndarray a f
        (fold_left mat_add
           (map2 (fun song ct => map (fun g => map (fun s => lax_mul s g) song) ct)
                 (cells song_data)
                 (prediction_cotangents params target song_data))
           (zeros a f))).
Proof.
  intros Hp Ht Hs. unfold grad_loss.
  fold (predict_all song_data params).
  rewrite (predict_all_shaped Hs Hp). simpl.
  assert (Hpred : has_shape
            (mk_ndarray i a (ratings (cells song_data) (cells params))) i a).
  { apply (predict_all_has_shape Hs Hp), (predict_all_shaped Hs Hp). }
  rewrite (jnp_sub_shaped Ht Hpred). simpl.
  assert (Hd : has_shape
            (mk_ndarray i a (map2 (map2 lax_sub) (cells target)
               (ratings (cells song_data) (cells params)))) i a).
  { apply (jnp_sub_has_shape Ht Hpred), (jnp_sub_shaped Ht Hpred). }
  destruct (has_shape_cells Hd) as [Hdl Hdr]. simpl in Hdl, Hdr.
  destruct (has_shape_cells Hs) as [Hsl Hsr].
  destruct Hp as [_ [Hpn Hpc]], Hs as [_ [Hsn Hsc]], Ht as [_ [Htn Htc]].
  rewrite Hsc, Hpc, broadcast_shapes_same. simpl.
  rewrite Hpn. do 2 f_equal.
  unfold sub_vjp_right, mean_abs_vjp, prediction_cotangents. simpl.
  rewrite unstretch_rows_same by now rewrite !length_map.
  rewrite !map_map, Htn, Htc.
  rewrite Forall_forall in Hsr, Hdr.
  f_equal.
  rewrite map_ext_in with
    (g := map (entry_cotangent (i * a))).
  - apply map2_ext_in. intros song ct Hsong Hct.
    unfold calc_people_ratings_vjp.
    apply map_ext. intros g.
    rewrite stretch_same by auto.
    apply unstretch_same. rewrite length_map, Hpc. auto.
  - intros x Hx. rewrite map_map.
    apply unstretch_same. rewrite length_map. auto.
Qed.

(** *** Shapes are preserved *)

Lemma zeros_shape a f : rows_shape a f (zeros a f).
Proof.
  split; unfold zeros.
  - apply repeat_length.
  - apply Forall_forall. intros x Hx. apply repeat_spec in Hx as ->.
    apply repeat_length.
Qed.

Lemma mat_add_shape a f x y :
  rows_shape a f x -> rows_shape a f y -> rows_shape a f (mat_add x y).
Proof.
  intros [Hxl Hxr] [Hyl Hyr]. split; unfold mat_add.
  - rewrite map2_length. lia.
  - now apply map2_rows_shape.
Qed.

Lemma fold_mat_add_shape a f ms z :
  Forall (rows_shape a f) ms -> rows_shape a f z ->
  rows_shape a f (fold_left mat_add ms z).
Proof.
  intros Hms; revert z; induction Hms as [|m ms Hm _ IH]; simpl; intros z Hz.
  - exact Hz.
  - apply IH. now apply mat_add_shape.
Qed.

Lemma prediction_cotangents_shape params target song_data i a f :
  has_shape params a f -> has_shape target i a -> has_shape song_data i f ->
  rows_shape i a (prediction_cotangents params target song_data).
Proof.
  intros Hp Ht Hs.
  destruct (has_shape_cells Hp) as [Hpl Hpr].
  destruct (has_shape_cells Ht) as [Htl Htr].
  destruct (has_shape_cells Hs) as [Hsl Hsr].
  unfold prediction_cotangents. split.
  - unfold ratings. rewrite length_map, map2_length, length_map. lia.
  - apply Forall_forall. intros x Hx.
    apply in_map_iff in Hx as [d [<- Hd]]. rewrite length_map.
    revert d Hd. apply Forall_forall. apply map2_rows_shape; [assumption|].
    rewrite <- Hpl. apply ratings_shape.
Qed.

Lemma map2_Forall {A B C} (P : C -> Prop) (g : A -> B -> C) l1 l2 :
  (forall x y, In x l1 -> In y l2 -> P (g x y)) -> Forall P (map2 g l1 l2).
Proof.
  revert l2; induction l1 as [|x r IH]; intros [|y r2] Hg; simpl;
    constructor.
  - apply Hg; now left.
  - apply IH. intros; apply Hg; now right.
Qed.

Lemma grad_loss_has_shape params target song_data g i a f :
  has_shape params a f -> has_shape target i a -> has_shape song_data i f ->
  grad_loss params target song_data = Ok g -> has_shape g a f.
Proof.
  intros Hp Ht Hs. rewrite (grad_loss_shaped Hp Ht Hs). intros [= <-].
  destruct (prediction_cotangents_shape Hp Ht Hs) as [Hcl Hcr].
  destruct (has_shape_cells Hs) as [Hsl Hsr].
  rewrite Forall_forall in Hcr, Hsr.
  destruct (fold_mat_add_shape (a := a) (f := f)
    (ms := map2 (fun song ct => map (fun g => map (fun s => lax_mul s g) song) ct)
                (cells song_data)
                (prediction_cotangents params target song_data))
    (z := zeros a f)) as [Hl Hr].
  - apply map2_Forall. intros song ct Hsong Hct. split.
    + rewrite length_map. auto.
    + apply Forall_forall. intros x Hx.
      apply in_map_iff in Hx as [g [<- _]]. rewrite length_map. auto.
  - apply zeros_shape.
  - now apply has_shape_mk.
Qed.

Lemma jnp_scale_has_shape (g : ndarray T) (k : T) a f :
  has_shape g a f -> has_shape (jnp_scale g k) a f.
Proof.
  intros Hg. destruct (has_shape_cells Hg) as [Hl Hr].
  destruct Hg as [_ [Hn Hc]].
  unfold jnp_scale. rewrite Hn, Hc. apply has_shape_mk.
  - now rewrite length_map.
  - apply Forall_forall. intros x Hx.
    apply in_map_iff in Hx as [y [<- Hy]]. rewrite length_map.
    rewrite Forall_forall in Hr. auto.
Qed.

(** One execution of the three shared statements, on arrays whose shapes
    agree: it returns, and the parameters keep their shape. *)
Lemma gradient_step_shaped (lr : T) (target song_data : ndarray T)
    (st : run_state) i a f :
  has_shape (st_params st) a f -> has_shape target i a ->
  has_shape song_data i f ->
  exists l g p,
    loss (st_params st) target song_data = Ok l /\
    grad_loss (st_params st) target song_data = Ok g /\
    has_shape g a f /\
    jnp_sub (st_params st) (jnp_scale g lr) = Ok p /\
    has_shape p a f /\
    gradient_step lr target song_data st =
    Ok (l, {| st_params := p; stdout := stdout st;
              updates := updates st ++ [(l, g)]; rounds := rounds st |}).
Proof.
  intros Hp Ht Hs.
  pose proof (loss_shaped Hp Ht Hs) as Hloss.
  pose proof (grad_loss_shaped Hp Ht Hs) as Hgrad.
  pose proof (grad_loss_has_shape Hp Ht Hs Hgrad) as Hg.
  pose proof (jnp_scale_has_shape lr Hg) as Hsc.
  pose proof (jnp_sub_shaped Hp Hsc) as Hsub.
  pose proof (jnp_sub_has_shape Hp Hsc Hsub) as Hnew.
  do 3 eexists.
  split; [exact Hloss|]. split; [exact Hgrad|]. split; [exact Hg|].
  split; [exact Hsub|]. split; [exact Hnew|].
  unfold gradient_step. rewrite Hloss. simpl. rewrite Hgrad. simpl.
  rewrite Hsub. reflexivity.
Qed.

End Shaped.

(** ** The row of one person *)

Section Rows.

Context {T : Type} `{Scalar T}.

Lemma nth_nil {A} (u : nat) (d : A) : nth u [] d = d.
Proof. now destruct u. Qed.

Lemma nth_map2_rows {A B C} (f : A -> B -> C) x y u :
  nth u (map2 (map2 f) x y) [] = map2 f (nth u x []) (nth u y []).
Proof.
  revert y u; induction x as [|r x IH]; intros [|r' y] [|u]; simpl; auto;
    try now rewrite ?nth_nil, map2_nil_r.
Qed.

Lemma nth_map_rows {A B} (h : A -> B) x u :
  nth u (map (map h) x) [] = map h (nth u x []).
Proof. apply (map_nth (map h) x [] u). Qed.

Lemma nth_map_in {A B} (h : A -> B) l u d d' :
  u < length l -> nth u (map h l) d = h (nth u l d').
Proof.
  intros Hu. rewrite nth_indep with (d' := h d') by now rewrite length_map.
  apply map_nth.
Qed.

Lemma nth_zeros a f u : u < a -> nth u (zeros a f) [] = repeat lax_zero f.
Proof.
  unfold zeros. revert u; induction a as [|a IH]; intros [|u] Hu; simpl;
    try lia; auto.
  apply IH. lia.
Qed.

Lemma nth_fold_mat_add ms z u :
  nth u (fold_left mat_add ms z) [] =
  fold_left vec_add (map (fun m => nth u m []) ms) (nth u z []).
Proof.
  revert z; induction ms as [|m ms IH]; intros z; simpl; [reflexivity|].
  rewrite IH. f_equal. unfold mat_add, vec_add. apply nth_map2_rows.
Qed.

Lemma map2_zip3 {A B C D E} (F : A -> D -> E) (K : B -> C -> D)
    (R : A -> C) l1 l2 :
  map2 F l1 (map2 K l2 (map R l1)) =
  map2 (fun x y => F x (K y (R x))) l1 l2.
Proof.
  revert l2; induction l1 as [|x r IH]; intros [|y r2]; simpl; auto.
  now rewrite IH.
Qed.

(** The row of a person in the gradient is computed from that person's
    preferences and ratings alone. *)
Lemma grad_loss_row (params target song_data g : ndarray T) i a f u :
  has_shape params a f -> has_shape target i a -> has_shape song_data i f ->
  u < a ->
  grad_loss params target song_data = Ok g ->
  row u g =
  agent_gradient (i * a) (cells song_data) (column u target) (row u params).
Proof.
  intros Hp Ht Hs Hu. rewrite (grad_loss_shaped Hp Ht Hs). intros [= <-].
  destruct (has_shape_cells Hp) as [Hpl Hpr].
  destruct (has_shape_cells Ht) as [Htl Htr].
  destruct (has_shape_cells Hs) as [Hsl Hsr].
  destruct Ht as [_ [Htn Htc]].
  rewrite Forall_forall in Hpr, Htr, Hsr.
  unfold row, agent_gradient, column. simpl.
  rewrite nth_fold_mat_add, nth_zeros by assumption.
  rewrite (Hpr (nth u (cells params) [])) by (apply nth_In; lia).
  f_equal.
  unfold prediction_cotangents, ratings.
  rewrite map_map2, map2_map_r, map2_zip3, map2_map_r, Htn, Htc.
  apply map2_ext_in. intros song t Hsong Hin.
  assert (Hlen : u < length (map2 lax_sub t
            (map (fun pref => jnp_sum (map2 lax_mul song pref)) (cells params)))).
  { rewrite map2_length, length_map, (Htr t Hin). lia. }
  rewrite nth_map_in with (d' := lax_zero) by now rewrite length_map.
  rewrite nth_map_in with (d' := lax_zero) by exact Hlen.
  rewrite map2_length, length_map in Hlen.
  rewrite nth_map2 with (d1 := lax_zero) (d2 := lax_zero)
    by (rewrite ?length_map; lia).
  rewrite nth_map_in with (d' := []) by lia.
  reflexivity.
Qed.

Lemma jnp_sub_scale_row (params g p : ndarray T) (lr : T) a f u :
  has_shape params a f -> has_shape g a f ->
  jnp_sub params (jnp_scale g lr) = Ok p ->
  row u p = map2 lax_sub (row u params) (map (fun x => lax_mul x lr) (row u g)).
Proof.
  intros Hp Hg Hsub.
  rewrite (jnp_sub_shaped Hp (jnp_scale_has_shape lr Hg)) in Hsub.
  injection Hsub as <-. unfold row. simpl.
  now rewrite nth_map2_rows, nth_map_rows.
Qed.

End Rows.

(** ** The loops *)

Section Loops.

Context {T : Type} `{Scalar T}.

Variables (lr : T) (target song_data : ndarray T) (i a f : nat).
Hypothesis Htarget : has_shape target i a.
Hypothesis Hsongs : has_shape song_data i f.

Lemma training_body_shaped (k : nat) (st : run_state) :
  has_shape (st_params st) a f ->
  exists l g p,
    loss (st_params st) target song_data = Ok l /\
    grad_loss (st_params st) target song_data = Ok g /\
    has_shape g a f /\
    jnp_sub (st_params st) (jnp_scale g lr) = Ok p /\
    has_shape p a f /\
    training_body lr target song_data k st =
    Ok {| st_params := p;
          stdout := stdout st ++
                    (if reported k then [IterationLoss k l] else []);
          updates := updates st ++ [(l, g)];
          rounds := S (rounds st) |}.
Proof.
  intros Hp.
  destruct (gradient_step_shaped lr st Hp Htarget Hsongs)
    as (l & g & p & Hl & Hg & Hgs & Hsub & Hps & Hstep).
  exists l, g, p. repeat (split; [assumption|]).
  unfold training_body. rewrite Hstep. simpl.
  destruct (reported k); unfold end_round, print; simpl;
    rewrite ?app_nil_r; reflexivity.
Qed.

(** The training loop on the rounds [k, k+1, ..., k+m-1]. *)
Lemma training_loop_shaped (m k : nat) (st : run_state) :
  has_shape (st_params st) a f -> length (updates st) = k ->
  exists st',
    for_loop (training_body lr target song_data) (seq k m) st = Ok st' /\
    has_shape (st_params st') a f /\
    rounds st' = rounds st + m /\
    (exists ext, updates st' = updates st ++ ext /\ length ext = m) /\
    stdout st' =
      stdout st ++
      map (fun j => IterationLoss j (fst (nth j (updates st') no_update)))
          (filter reported (seq k m)) /\
    iterate m (descent_step lr target song_data) (st_params st) =
      Ok (st_params st') /\
    (forall u, u < a ->
       row u (st_params st') =
       Nat.iter m (agent_step (i * a) lr (cells song_data) (column u target))
                (row u (st_params st))).
Proof.
  revert k st; induction m as [|m IH]; intros k st Hp Hk.
  - simpl. exists st. split; [reflexivity|]. split; [exact Hp|]. split; [lia|].
    split; [exists []; now rewrite app_nil_r|].
    split; [now rewrite app_nil_r|]. split; [reflexivity|]. reflexivity.
  - destruct (training_body_shaped k st Hp)
      as (l & g & p & Hl & Hg & Hgs & Hsub & Hps & Hbody).
    cbn [seq for_loop iterate]. rewrite Hbody. cbn [bind].
    match goal with |- context [for_loop _ _ ?s] => set (st1 := s) end.
    destruct (IH (S k) st1) as (st' & Hrun & Hshape & Hr & Hu & Hout & Hit & Hrow).
    { exact Hps. }
    { subst st1. simpl. rewrite length_app, Hk. simpl. lia. }
    exists st'. subst st1. cbn [st_params stdout updates rounds] in *.
    destruct Hu as (ext & Hext & Hlen).
    assert (Hnth : nth k (updates st') no_update = (l, g)).
    { rewrite Hext, <- app_assoc, app_nth2 by lia.
      now rewrite Hk, Nat.sub_diag. }
    split; [exact Hrun|]. split; [exact Hshape|]. split; [lia|].
    split; [|split; [|split]].
    + exists ((l, g) :: ext). rewrite Hext, <- app_assoc. simpl.
      split; [reflexivity | lia].
    + rewrite Hout, <- app_assoc. f_equal.
      cbn [filter]. destruct (reported k); simpl; [|reflexivity].
      now rewrite Hnth.
    + unfold descent_step at 1. rewrite Hg. simpl. rewrite Hsub. exact Hit.
    + intros u Hlt. rewrite (Hrow u Hlt), Nat.iter_succ_r. f_equal.
      rewrite (jnp_sub_scale_row lr u Hp Hgs Hsub).
      now rewrite (grad_loss_row Hp Htarget Hsongs Hlt Hg).
Qed.

(** The personalization loop on the rounds [k, ..., k+m-1]: a round whose
    loss is printed assigns the parameters twice. *)
Lemma personalization_loop_shaped (m k : nat) (st : run_state) :
  has_shape (st_params st) a f ->
  exists st',
    for_loop (personalization_body lr target song_data) (seq k m) st = Ok st' /\
    has_shape (st_params st') a f /\
    rounds st' = rounds st + m /\
    length (updates st') =
      length (updates st) + m + length (filter reported (seq k m)).
Proof.
  revert k st; induction m as [|m IH]; intros k st Hp.
  - simpl. exists st. repeat split; try lia; apply Hp.
  - cbn [seq for_loop filter]. unfold personalization_body at 1.
    destruct (gradient_step_shaped lr st Hp Htarget Hsongs)
      as (l & g & p & _ & _ & _ & _ & Hps & Hstep).
    rewrite Hstep. cbn [bind].
    destruct (reported k).
    + match type of Hstep with _ = Ok (_, ?s) => set (st1 := s) in * end.
      destruct (gradient_step_shaped lr st1 Hps Htarget Hsongs)
        as (l2 & g2 & p2 & _ & _ & _ & _ & Hps2 & Hstep2).
      rewrite Hstep2. cbn [bind].
      match goal with |- context [for_loop _ _ ?s] => set (st2 := s) end.
      destruct (IH (S k) st2 Hps2) as (st' & Hrun & Hshape & Hr & Hu).
      exists st'. subst st2 st1.
      cbn [st_params updates rounds end_round print] in *.
      rewrite !length_app in Hu. cbn [length] in *.
      repeat split; try apply Hshape; try assumption; lia.
    + cbn [bind].
      match goal with |- context [for_loop _ _ ?s] => set (st2 := s) end.
      destruct (IH (S k) st2 Hps) as (st' & Hrun & Hshape & Hr & Hu).
      exists st'. subst st2.
      cbn [st_params updates rounds end_round] in *.
      rewrite !length_app in Hu. cbn [length] in *.
      repeat split; try apply Hshape; try assumption; lia.
Qed.

End Loops.

Lemma slice_rows_has_shape {T} `{Scalar T} (a : ndarray T) (n i f : nat) :
  has_shape a i f -> n <= i -> has_shape (slice_rows n a) n f.
Proof.
  intros Ha Hn. destruct (has_shape_cells Ha) as [Hl Hr].
  destruct Ha as [_ [Hrows Hcols]].
  unfold slice_rows. rewrite Hrows, Hcols, Nat.min_l by exact Hn.
  apply has_shape_mk.
  - rewrite length_firstn. lia.
  - rewrite Forall_forall in *. intros x Hx. apply Hr.
    rewrite <- (firstn_skipn n (cells a)). apply in_or_app. now left.
Qed.

(** ** Sums of rationals *)

Section Rationals.

Local Open Scope Qc_scope.

Lemma fold_left_Qcplus (l : list Qc) (x : Qc) :
  fold_left Qcplus l x = x + fold_left Qcplus l 0.
Proof.
  revert x; induction l as [|y l IH]; intros x; simpl.
  - ring.
  - rewrite IH, (IH (0 + y)). ring.
Qed.

Lemma jnp_sum_nil : jnp_sum (@nil Qc) = 0.
Proof. reflexivity. Qed.

Lemma jnp_sum_cons (x : Qc) (l : list Qc) :
  jnp_sum (x :: l) = x + jnp_sum l.
Proof.
  unfold jnp_sum. simpl. rewrite fold_left_Qcplus. f_equal. ring.
Qed.

Lemma jnp_sum_app (l1 l2 : list Qc) :
  jnp_sum (l1 ++ l2) = jnp_sum l1 + jnp_sum l2.
Proof.
  induction l1 as [|x l1 IH]; simpl.
  - rewrite jnp_sum_nil. ring.
  - rewrite !jnp_sum_cons, IH. ring.
Qed.

Lemma jnp_sum_concat (rs : list (list Qc)) :
  jnp_sum (concat rs) = jnp_sum (map jnp_sum rs).
Proof.
  induction rs as [|r rs IH]; simpl; [reflexivity|].
  now rewrite jnp_sum_app, jnp_sum_cons, IH.
Qed.

Lemma jnp_sum_dot (x y : list Qc) :
  jnp_sum (map2 Qcmult x y) = Spec.dot x y.
Proof.
  revert y; induction x as [|a x IH]; intros [|b y]; simpl; try reflexivity.
  now rewrite jnp_sum_cons, IH.
Qed.

Lemma big_sum_ext (n : nat) (F G : nat -> Qc) :
  (forall k, (k < n)%nat -> F k = G k) -> Spec.big_sum n F = Spec.big_sum n G.
Proof.
  induction n as [|n IH]; intros Hext; simpl; [reflexivity|].
  rewrite IH, Hext by auto. reflexivity.
Qed.

Lemma big_sum_shift (n : nat) (F : nat -> Qc) :
  Spec.big_sum (S n) F = F O + Spec.big_sum n (fun k => F (S k)).
Proof.
  induction n as [|n IH].
  - simpl. ring.
  - change (Spec.big_sum (S (S n)) F) with (Spec.big_sum (S n) F + F (S n)).
    rewrite IH. simpl. ring.
Qed.

Lemma big_sum_scale (n : nat) (c : Qc) (F : nat -> Qc) :
  Spec.big_sum n (fun k => c * F k) = c * Spec.big_sum n F.
Proof.
  induction n as [|n IH]; simpl; [ring|]. rewrite IH. ring.
Qed.

Lemma big_sum_zero (n : nat) : Spec.big_sum n (fun _ => 0) = 0.
Proof. induction n as [|n IH]; simpl; [reflexivity|]. rewrite IH. ring. Qed.

(** A sum over a list is the sum over its positions. *)
Lemma jnp_sum_big_sum (l : list Qc) :
  jnp_sum l = Spec.big_sum (length l) (fun k => nth k l 0).
Proof.
  induction l as [|x l IH]; [reflexivity|].
  cbn [length]. rewrite big_sum_shift, jnp_sum_cons, IH. reflexivity.
Qed.

Lemma jnp_sum_map_big_sum {A} (g : A -> Qc) (l : list A) (d : A) :
  jnp_sum (map g l) = Spec.big_sum (length l) (fun k => g (nth k l d)).
Proof.
  rewrite jnp_sum_big_sum, length_map. apply big_sum_ext. intros k Hk.
  now apply nth_map_in.
Qed.

Lemma dot_big_sum (x y : list Qc) (n : nat) :
  length x = n -> length y = n ->
  Spec.dot x y = Spec.big_sum n (fun k => nth k x 0 * nth k y 0).
Proof.
  revert y n; induction x as [|a x IH]; intros [|b y] [|n];
    try discriminate; try reflexivity.
  intros [= Hx] [= Hy].
  rewrite big_sum_shift. cbn [Spec.dot nth]. now rewrite (IH y n).
Qed.

End Rationals.

(** ** Order on the rationals *)

Section Order.

Local Open Scope Qc_scope.

Lemma Qc_of_nat_pos (n : nat) : (0 < n)%nat -> 0 < Qc_of_nat n.
Proof.
  intros Hn. unfold Qclt, Qc_of_nat, Q2Qc. cbn [this].
  rewrite !Qred_correct. unfold Qlt. simpl. lia.
Qed.

Lemma Qcinv_pos (x : Qc) : 0 < x -> 0 < / x.
Proof.
  unfold Qclt, Qcinv, Q2Qc. cbn [this]. rewrite !Qred_correct. intros Hx.
  now apply Qinv_lt_0_compat.
Qed.

Lemma Qcdiv_nonneg (x n : Qc) : 0 <= x -> 0 < n -> 0 <= x / n.
Proof.
  intros Hx Hn. unfold Qcdiv.
  replace 0 with (0 * / n) by ring.
  apply Qcmult_le_compat_r; [exact Hx|].
  apply Qclt_le_weak, Qcinv_pos, Hn.
Qed.

Lemma Qcdiv_zero (x n : Qc) : 0 < n -> x / n = 0 -> x = 0.
Proof.
  intros Hn Hz. unfold Qcdiv in Hz.
  destruct (Qcmult_integral _ _ Hz) as [Hx | Hinv]; [exact Hx|].
  apply Qcinv_pos in Hn. rewrite Hinv in Hn.
  now apply Qclt_not_eq in Hn.
Qed.

Lemma Qcplus_nonneg (x y : Qc) : 0 <= x -> 0 <= y -> 0 <= x + y.
Proof.
  intros Hx Hy. replace 0 with (0 + 0) by ring.
  now apply Qcplus_le_compat.
Qed.

Lemma Qcplus_zero (x y : Qc) : 0 <= x -> 0 <= y -> x + y = 0 -> x = 0 /\ y = 0.
Proof.
  intros Hx Hy Hs.
  assert (Hxle : x <= 0).
  { replace 0 with (x + y) by exact Hs.
    replace x with (x + 0) at 1 by ring.
    apply Qcplus_le_compat; [apply Qcle_refl | exact Hy]. }
  assert (Hx0 : x = 0) by now apply Qcle_antisym.
  split; [exact Hx0|]. rewrite Hx0 in Hs. rewrite <- Hs. ring.
Qed.

Lemma big_sum_nonneg (n : nat) (F : nat -> Qc) :
  (forall k, (k < n)%nat -> 0 <= F k) -> 0 <= Spec.big_sum n F.
Proof.
  induction n as [|n IH]; intros HF; simpl.
  - apply Qcle_refl.
  - apply Qcplus_nonneg; auto.
Qed.

Lemma big_sum_zero_inv (n : nat) (F : nat -> Qc) :
  (forall k, (k < n)%nat -> 0 <= F k) -> Spec.big_sum n F = 0 ->
  forall k, (k < n)%nat -> F k = 0.
Proof.
  induction n as [|n IH]; intros HF Hz k Hk; [lia|].
  simpl in Hz.
  apply Qcplus_zero in Hz as [Hz1 Hz2];
    [| apply big_sum_nonneg; auto | auto].
  destruct (Nat.eq_dec k n) as [->|Hne]; [exact Hz2|].
  apply IH; auto. lia.
Qed.

Lemma Qcminus_diag_inv (x y : Qc) : x - y = 0 -> x = y.
Proof. intros Hd. replace x with (x - y + y) by ring. rewrite Hd. ring. Qed.

Lemma Qcge_bool_true (x : Qc) : 0 <= x -> Qcge_bool x 0 = true.
Proof.
  intros Hx. unfold Qcge_bool.
  destruct (x ?= 0) eqn:Hc; try reflexivity.
  apply Qclt_alt in Hc. now apply Qcle_not_lt in Hx.
Qed.

Lemma Qcge_bool_false (x : Qc) : x < 0 -> Qcge_bool x 0 = false.
Proof.
  intros Hx. pose proof (proj1 (Qclt_alt x 0) Hx) as Hc.
  unfold Qcge_bool. now rewrite Hc.
Qed.

Lemma slope_nonneg (x : Qc) : 0 <= x -> Closed.slope x = 1.
Proof. intros Hx. unfold Closed.slope. now rewrite Qcge_bool_true. Qed.

Lemma slope_neg (x : Qc) : x < 0 -> Closed.slope x = - (1).
Proof. intros Hx. unfold Closed.slope. now rewrite Qcge_bool_false. Qed.

Lemma slope_cases (x : Qc) : Closed.slope x = 1 \/ Closed.slope x = - (1).
Proof. unfold Closed.slope. destruct (Qcge_bool x 0); auto. Qed.

(** Away from zero the factor is the sign of the specification. *)
Lemma sign_opp_slope (x : Qc) : x <> 0 -> Spec.sign (- x) = - Closed.slope x.
Proof.
  intros Hx. unfold Spec.sign.
  destruct (Qc_dec x 0) as [[Hlt | Hgt] | Heq]; [| |contradiction].
  - assert (Hneg : 0 < - x).
    { apply Qclt_minus_iff in Hlt. now replace (0 + - x) with (- x) in Hlt by ring. }
    assert (H2 : (- x ?= 0) = Gt) by now apply Qcgt_alt.
    rewrite H2, slope_neg by exact Hlt. ring.
  - assert (Hneg : - x < 0).
    { apply Qclt_minus_iff. now replace (0 + - - x) with x by ring. }
    assert (H2 : (- x ?= 0) = Lt) by now apply Qclt_alt.
    rewrite H2, slope_nonneg by now apply Qclt_le_weak. reflexivity.
Qed.

End Order.

(** ** Arrays read by position *)

Ltac qc_ops :=
  change (@lax_zero Qc Scalar_Qc) with (Q2Qc 0) in *;
  change (@lax_one Qc Scalar_Qc) with (Q2Qc 1) in *;
  change (@lax_add Qc Scalar_Qc) with Qcplus in *;
  change (@lax_sub Qc Scalar_Qc) with Qcminus in *;
  change (@lax_mul Qc Scalar_Qc) with Qcmult in *;
  change (@lax_div Qc Scalar_Qc) with Qcdiv in *;
  change (@lax_neg Qc Scalar_Qc) with Qcopp in *;
  change (@lax_abs Qc Scalar_Qc) with Qcabs in *;
  change (@lax_ge Qc Scalar_Qc) with Qcge_bool in *;
  change (@lax_of_nat Qc Scalar_Qc) with Qc_of_nat in *.

Lemma nth_map_seq {A} (g : nat -> A) (n k : nat) (d : A) :
  k < n -> nth k (map g (seq 0 n)) d = g k.
Proof.
  intros Hk. rewrite nth_map_in with (d' := 0) by now rewrite length_seq.
  now rewrite seq_nth.
Qed.

Lemma map_as_seq {A B} (g : A -> B) (l : list A) (d : A) :
  map g l = map (fun k => g (nth k l d)) (seq 0 (length l)).
Proof. rewrite <- (map_nth_seq l d) at 1. now rewrite map_map. Qed.

Lemma has_shape_row {T} (a : ndarray T) r c x :
  has_shape a r c -> x < r -> length (row x a) = c.
Proof.
  intros [[Hl Hr] [Hn Hc]] Hx. rewrite Forall_forall in Hr.
  rewrite <- Hc. apply Hr. apply nth_In. lia.
Qed.

Lemma entry_ratings (ss ps : list (list Qc)) x u :
  x < length ss -> u < length ps ->
  nth u (nth x (ratings ss ps) []) (Q2Qc 0) =
  Spec.dot (nth x ss []) (nth u ps []).
Proof.
  intros Hx Hu. unfold ratings.
  rewrite nth_map_in with (d' := []) by assumption.
  rewrite nth_map_in with (d' := []) by assumption.
  qc_ops. apply jnp_sum_dot.
Qed.

Lemma entry_transpose (a : ndarray Qc) k j :
  k < ncols a -> j < nrows a ->
  Spec.entry (Spec.transpose a) k j = Spec.entry a j k.
Proof.
  intros Hk Hj. unfold Spec.entry at 1, Spec.transpose. simpl.
  rewrite nth_map_seq with (d := []) by assumption.
  now rewrite nth_map_seq by assumption.
Qed.

(** ** The loss over the rationals *)

Section LossRationals.

Local Open Scope Qc_scope.

Lemma mean_abs_error_shaped (target pred : ndarray Qc) (i a : nat) :
  has_shape target i a -> has_shape pred i a ->
  mean_abs_error target pred = Ok (Spec.mean_absolute_error pred target).
Proof.
  intros Ht Hp. unfold mean_abs_error.
  rewrite (jnp_sub_shaped Ht Hp).
  cbn [bind]. unfold jnp_mean, jnp_abs. cbn [cells nrows ncols].
  destruct (has_shape_cells Ht) as [Htl Htr].
  destruct (has_shape_cells Hp) as [Hpl Hpr].
  destruct Ht as [_ [Htn Htc]].
  rewrite Forall_forall in Htr, Hpr.
  unfold Spec.mean_absolute_error. rewrite Htn, Htc. qc_ops.
  do 2 f_equal.
  rewrite jnp_sum_concat, jnp_sum_map_big_sum with (d := nil).
  rewrite length_map, map2_length, Htl, Hpl, Nat.min_id.
  apply big_sum_ext. intros x Hx.
  rewrite nth_map_rows, nth_map2_rows, jnp_sum_big_sum.
  assert (Hlt : length (nth x (cells target) nil) = a)
    by (apply Htr, nth_In; lia).
  assert (Hlp : length (nth x (cells pred) nil) = a)
    by (apply Hpr, nth_In; lia).
  rewrite length_map, map2_length, Hlt, Hlp, Nat.min_id.
  apply big_sum_ext. intros u Hu.
  rewrite nth_map_in with (d' := 0) by (rewrite map2_length; lia).
  rewrite nth_map2 with (d1 := 0) (d2 := 0) by lia.
  apply Qcabs_Qcminus.
Qed.

Lemma entries_eq (x y : ndarray Qc) (r c : nat) :
  has_shape x r c -> has_shape y r c ->
  (forall i u, (i < r)%nat -> (u < c)%nat ->
     Spec.entry x i u = Spec.entry y i u) ->
  x = y.
Proof.
  intros Hx Hy Hent. apply (has_shape_eq Hx Hy).
  destruct (has_shape_cells Hx) as [Hxl Hxr].
  destruct (has_shape_cells Hy) as [Hyl Hyr].
  rewrite Forall_forall in Hxr, Hyr.
  apply nth_ext with (d := nil) (d' := nil); [congruence|].
  intros i Hi.
  assert (Hlx : length (nth i (cells x) nil) = c) by (apply Hxr, nth_In; lia).
  assert (Hly : length (nth i (cells y) nil) = c) by (apply Hyr, nth_In; lia).
  apply nth_ext with (d := 0) (d' := 0); [congruence|].
  intros u Hu. apply Hent; lia.
Qed.

Lemma mean_absolute_error_nonneg (x y : ndarray Qc) :
  (0 < nrows y * ncols y)%nat -> 0 <= Spec.mean_absolute_error x y.
Proof.
  intros Hn. unfold Spec.mean_absolute_error.
  apply Qcdiv_nonneg; [| now apply Qc_of_nat_pos].
  apply big_sum_nonneg. intros i _.
  apply big_sum_nonneg. intros u _. apply Qcabs_nonneg.
Qed.

Lemma mean_absolute_error_zero (x y : ndarray Qc) (r c : nat) :
  has_shape x r c -> has_shape y r c -> (0 < r * c)%nat ->
  Spec.mean_absolute_error x y = 0 -> x = y.
Proof.
  intros Hx Hy Hn Hz. apply (entries_eq Hx Hy). intros i u Hi Hu.
  destruct Hy as [_ [Hyn Hyc]].
  unfold Spec.mean_absolute_error in Hz. rewrite Hyn, Hyc in Hz.
  apply Qcdiv_zero in Hz; [| now apply Qc_of_nat_pos].
  assert (Hrow : Spec.big_sum c
            (fun u => Qcabs (Spec.entry x i u - Spec.entry y i u)) = 0).
  { revert i Hi. apply big_sum_zero_inv; [|exact Hz].
    intros k _. apply big_sum_nonneg. intros v _. apply Qcabs_nonneg. }
  assert (Habs : Qcabs (Spec.entry x i u - Spec.entry y i u) = 0).
  { revert u Hu. apply big_sum_zero_inv; [|exact Hrow].
    intros v _. apply Qcabs_nonneg. }
  now apply Qcminus_diag_inv, Qcabs_null.
Qed.

Lemma mean_absolute_error_diag (x : ndarray Qc) :
  Spec.mean_absolute_error x x = 0.
Proof.
  unfold Spec.mean_absolute_error.
  rewrite big_sum_ext with (G := fun _ => 0).
  - rewrite big_sum_zero. unfold Qcdiv. ring.
  - intros i _. rewrite big_sum_ext with (G := fun _ => 0).
    + apply big_sum_zero.
    + intros u _.
      replace (Spec.entry x i u - Spec.entry x i u) with 0 by ring.
      apply Qcabs_pos, Qcle_refl.
Qed.

End LossRationals.

(** ** The gradient over the rationals *)

Section GradientRationals.

Local Open Scope Qc_scope.

Lemma vec_add_length (x y : list Qc) (n : nat) :
  length x = n -> length y = n -> length (vec_add x y) = n.
Proof. intros Hx Hy. unfold vec_add. rewrite map2_length. lia. Qed.

Lemma nth_fold_vec_add (vs : list (list Qc)) (acc : list Qc) (n k : nat) :
  Forall (fun v => length v = n) vs -> length acc = n -> (k < n)%nat ->
  nth k (fold_left vec_add vs acc) 0 =
  nth k acc 0 + jnp_sum (map (fun v => nth k v 0) vs).
Proof.
  intros Hvs; revert acc; induction Hvs as [|v vs Hv _ IH];
    intros acc Hacc Hk; simpl.
  - rewrite jnp_sum_nil. ring.
  - rewrite IH by (auto using vec_add_length).
    rewrite jnp_sum_cons. unfold vec_add.
    rewrite nth_map2 with (d1 := 0) (d2 := 0) by lia.
    qc_ops. ring.
Qed.

Lemma nth_repeat_zero (n k : nat) : nth k (repeat (Q2Qc 0) n) 0 = 0.
Proof. apply nth_repeat. Qed.

Lemma jnp_sum_map2_big_sum {A B} (g : A -> B -> Qc) (l1 : list A)
    (l2 : list B) (n : nat) (d1 : A) (d2 : B) :
  length l1 = n -> length l2 = n ->
  jnp_sum (map2 g l1 l2) =
  Spec.big_sum n (fun x => g (nth x l1 d1) (nth x l2 d2)).
Proof.
  intros H1 H2. rewrite jnp_sum_big_sum, map2_length, H1, H2, Nat.min_id.
  apply big_sum_ext. intros x Hx. apply nth_map2; lia.
Qed.

(** The entries of the gradient of one person. *)
Lemma agent_gradient_entry (n : nat) (ss : list (list Qc)) (ts pref : list Qc)
    (i f k : nat) :
  length ss = i -> Forall (fun v => length v = f) ss -> length ts = i ->
  length pref = f -> (k < f)%nat ->
  nth k (agent_gradient n ss ts pref) 0 =
  1 / Qc_of_nat n *
  Spec.big_sum i
    (fun x => - Closed.slope (nth x ts 0 - Spec.dot (nth x ss nil) pref)
              * nth k (nth x ss nil) 0).
Proof.
  intros Hss Hsr Hts Hpref Hk. unfold agent_gradient.
  rewrite Forall_forall in Hsr.
  rewrite nth_fold_vec_add with (n := f);
    [| | now rewrite repeat_length, Hpref | exact Hk].
  - rewrite Hpref, nth_repeat_zero, map_map2.
    rewrite map2_ext_in with
      (g := fun song t =>
              nth k song 0 *
              entry_cotangent n (t - Spec.dot song pref)).
    + rewrite jnp_sum_map2_big_sum with (n := i) (d1 := nil) (d2 := 0)
        by assumption.
      rewrite <- big_sum_scale, Qcplus_0_l.
      apply big_sum_ext. intros x Hx.
      unfold entry_cotangent, abs_jvp, Closed.slope. qc_ops.
      destruct (Qcge_bool (nth x ts 0 - Spec.dot (nth x ss nil) pref) 0);
        ring.
    + intros song t Hsong _. qc_ops. rewrite jnp_sum_dot.
      rewrite nth_map_in with (d' := 0) by (rewrite (Hsr song Hsong); exact Hk).
      reflexivity.
  - apply map2_Forall. intros song t Hsong _.
    rewrite length_map. auto.
Qed.

Lemma nth_column (t : ndarray Qc) (u x : nat) :
  (x < length (cells t))%nat -> nth x (column u t) 0 = Spec.entry t x u.
Proof.
  intros Hx. unfold column, Spec.entry.
  now rewrite nth_map_in with (d' := nil).
Qed.

Lemma gradient_closed_shape (params target song_features : ndarray Qc) a f :
  nrows params = a -> ncols params = f ->
  has_shape (Closed.gradient params target song_features) a f.
Proof.
  intros Hn Hc. unfold Closed.gradient. rewrite Hn, Hc. apply has_shape_mk.
  - now rewrite length_map, length_seq.
  - apply Forall_forall. intros r Hr.
    apply in_map_iff in Hr as [u [<- _]].
    now rewrite length_map, length_seq.
Qed.

End GradientRationals.

(** ** The gradient is the derivative of the loss *)

Section Derivative.

Local Open Scope Qc_scope.

Lemma big_sum_plus (n : nat) (F G : nat -> Qc) :
  Spec.big_sum n (fun k => F k + G k) = Spec.big_sum n F + Spec.big_sum n G.
Proof. induction n as [|n IH]; simpl; [ring|]. rewrite IH. ring. Qed.

Lemma big_sum_minus (n : nat) (F G : nat -> Qc) :
  Spec.big_sum n (fun k => F k - G k) = Spec.big_sum n F - Spec.big_sum n G.
Proof. induction n as [|n IH]; simpl; [ring|]. rewrite IH. ring. Qed.

Lemma big_sum_swap (n m : nat) (F : nat -> nat -> Qc) :
  Spec.big_sum n (fun i => Spec.big_sum m (fun j => F i j)) =
  Spec.big_sum m (fun j => Spec.big_sum n (fun i => F i j)).
Proof.
  induction n as [|n IH]; simpl.
  - now rewrite big_sum_zero.
  - rewrite IH, <- big_sum_plus. reflexivity.
Qed.

Lemma Qcabs_slope (x : Qc) : Qcabs x = Closed.slope x * x.
Proof.
  destruct (Qclt_le_dec x 0) as [Hlt | Hge].
  - rewrite slope_neg, Qcabs_neg by (try apply Qclt_le_weak; exact Hlt). ring.
  - rewrite slope_nonneg, Qcabs_pos by exact Hge. ring.
Qed.

(** The absolute value of a residual, by the factor the reverse pass gives
    it. *)
Lemma Qcabs_residual (params target song_features : ndarray Qc) (x u : nat) :
  Qcabs (Spec.predicted song_features params x u - Spec.entry target x u) =
  Closed.s params target song_features x u
  * (Spec.predicted song_features params x u - Spec.entry target x u).
Proof.
  rewrite <- Qcabs_opp, Qcabs_slope. unfold Closed.s.
  replace (- (Spec.predicted song_features params x u - Spec.entry target x u))
    with (Spec.entry target x u - Spec.predicted song_features params x u)
    by ring.
  ring.
Qed.

Lemma closed_s_above (params target song_features : ndarray Qc) (x u : nat) :
  Spec.entry target x u < Spec.predicted song_features params x u ->
  Closed.s params target song_features x u = 1.
Proof.
  intros Hlt. unfold Closed.s. rewrite slope_neg; [ring|].
  apply Qclt_minus_iff.
  replace (0 + - (Spec.entry target x u
                  - Spec.predicted song_features params x u))
    with (Spec.predicted song_features params x u + - Spec.entry target x u)
    by ring.
  now apply Qclt_minus_iff in Hlt.
Qed.

Lemma closed_s_below (params target song_features : ndarray Qc) (x u : nat) :
  Spec.predicted song_features params x u <= Spec.entry target x u ->
  Closed.s params target song_features x u = - (1).
Proof.
  intros Hle. unfold Closed.s. rewrite slope_nonneg; [reflexivity|].
  now apply Qcle_minus_iff in Hle.
Qed.

Lemma closed_s_is_sign (params target song_features : ndarray Qc) (x u : nat) :
  Spec.predicted song_features params x u <> Spec.entry target x u ->
  Closed.s params target song_features x u =
  Spec.s params target song_features x u.
Proof.
  intros Hne. unfold Closed.s, Spec.s.
  rewrite <- sign_opp_slope.
  - f_equal. ring.
  - intros Hz. apply Hne. symmetry. now apply Qcminus_diag_inv.
Qed.

Lemma big_sum_scale_r (n : nat) (F : nat -> Qc) (d : Qc) :
  Spec.big_sum n (fun k => F k * d) = Spec.big_sum n F * d.
Proof. induction n as [|n IH]; simpl; [ring|]. rewrite IH. ring. Qed.

Lemma gradient_entry (params target song_features : ndarray Qc)
    (i a f u k : nat) :
  has_shape params a f -> has_shape target i a ->
  (u < a)%nat -> (k < f)%nat ->
  Spec.entry (Closed.gradient params target song_features) u k =
  1 / Qc_of_nat (i * a)
  * Spec.big_sum i
      (fun x => Closed.s params target song_features x u
                * Spec.entry song_features x k).
Proof.
  intros [_ [Hpn Hpc]] [_ [Htn Htc]] Hu Hk.
  unfold Spec.entry at 1, Closed.gradient. cbn [cells].
  rewrite Hpn, Hpc, Htn, Htc.
  rewrite nth_map_seq with (d := nil) by assumption.
  now rewrite nth_map_seq by assumption.
Qed.

Lemma Qcdiv_minus (x y n : Qc) : x / n - y / n = / n * (x - y).
Proof. unfold Qcdiv. ring. Qed.

Lemma dot_plus_r (v p d : list Qc) :
  length p = length d ->
  Spec.dot v (map2 Qcplus p d) = Spec.dot v p + Spec.dot v d.
Proof.
  revert p d; induction v as [|x v IH]; intros [|y p] [|z d] Hl;
    simpl in *; try discriminate; try ring.
  rewrite IH by lia. ring.
Qed.

Lemma moved_has_shape (params delta : ndarray Qc) (a f : nat) :
  has_shape params a f -> has_shape delta a f ->
  has_shape (Spec.moved params delta) a f.
Proof.
  intros Hp Hd. destruct (has_shape_cells Hp) as [Hpl Hpr].
  destruct (has_shape_cells Hd) as [Hdl Hdr].
  destruct Hp as [_ [Hn Hc]]. unfold Spec.moved. rewrite Hn, Hc.
  apply has_shape_mk.
  - rewrite map2_length. lia.
  - now apply map2_rows_shape.
Qed.

Lemma predicted_moved (song_features params delta : ndarray Qc)
    (a f x u : nat) :
  has_shape params a f -> has_shape delta a f -> (u < a)%nat ->
  Spec.predicted song_features (Spec.moved params delta) x u =
  Spec.predicted song_features params x u
  + Spec.dot (row x song_features) (row u delta).
Proof.
  intros Hp Hd Hu. unfold Spec.predicted, row, Spec.moved. cbn [cells].
  rewrite nth_map2_rows. apply dot_plus_r.
  fold (row u params) (row u delta).
  now rewrite (has_shape_row Hp Hu), (has_shape_row Hd Hu).
Qed.

Lemma loss_as_residuals (params target song_features : ndarray Qc)
    (i a f : nat) :
  has_shape params a f -> has_shape target i a ->
  has_shape song_features i f ->
  loss params target song_features =
  Ok (Spec.big_sum i
        (fun x => Spec.big_sum a
           (fun u => Qcabs (Spec.predicted song_features params x u
                            - Spec.entry target x u)))
      / Qc_of_nat (i * a)).
Proof.
  intros Hp Ht Hs. unfold loss. fold (predict_all song_features params).
  rewrite (predict_all_shaped Hs Hp). cbn [bind].
  rewrite (mean_abs_error_shaped Ht)
    by apply (predict_all_has_shape Hs Hp), (predict_all_shaped Hs Hp).
  destruct (has_shape_cells Hp) as [Hpl _].
  destruct (has_shape_cells Hs) as [Hsl _].
  destruct Ht as [_ [Htn Htc]].
  unfold Spec.mean_absolute_error. rewrite Htn, Htc. do 2 f_equal.
  apply big_sum_ext. intros x Hx. apply big_sum_ext. intros u Hu.
  unfold Spec.entry at 1. cbn [cells].
  rewrite entry_ratings by lia. reflexivity.
Qed.

Lemma grad_loss_is_closed_gradient (params target song_features : ndarray Qc)
    (i a f : nat) :
  has_shape params a f -> has_shape target i a ->
  has_shape song_features i f ->
  grad_loss params target song_features =
    Ok (Closed.gradient params target song_features).
Proof.
  intros Hp Ht Hs.
  pose proof (grad_loss_shaped Hp Ht Hs) as Hg.
  match type of Hg with _ = Ok ?x => set (g := x) in * end.
  pose proof (grad_loss_has_shape Hp Ht Hs Hg) as Hgs.
  rewrite Hg. f_equal.
  destruct (has_shape_cells Hp) as [Hpl Hpr].
  destruct (has_shape_cells Ht) as [Htl Htr].
  destruct (has_shape_cells Hs) as [Hsl Hsr].
  pose proof Hp as [_ [Hpn Hpc]]. pose proof Ht as [_ [Htn Htc]].
  apply (entries_eq Hgs
           (@gradient_closed_shape params target song_features a f Hpn Hpc)).
  intros u k Hu Hk.
  unfold Spec.entry at 1. fold (row u g).
  rewrite (grad_loss_row Hp Ht Hs Hu Hg).
  rewrite agent_gradient_entry with (i := i) (f := f);
    [| assumption | assumption | unfold column; now rewrite length_map
     | now apply (has_shape_row Hp) | assumption].
  unfold Spec.entry, Closed.gradient. cbn [cells].
  rewrite Hpn, Hpc, Htn, Htc.
  rewrite nth_map_seq with (d := nil) by assumption.
  rewrite nth_map_seq by assumption.
  f_equal. apply big_sum_ext. intros x Hx.
  rewrite nth_column by lia. reflexivity.
Qed.

(** Where moving the parameters by [delta] changes the factor of no
    residual, the loss changes by the inner product of the gradient and
    [delta]: the array that [grad_loss] returns is the derivative of
    [loss]. *)
Lemma grad_loss_linearises_loss
    (params delta target song_features : ndarray Qc) (i a f : nat) :
  has_shape params a f -> has_shape delta a f -> has_shape target i a ->
  has_shape song_features i f ->
  (0 < i)%nat -> (0 < a)%nat ->
  (forall x u, (x < i)%nat -> (u < a)%nat ->
     Closed.s (Spec.moved params delta) target song_features x u =
     Closed.s params target song_features x u) ->
  exists l l' g,
    loss params target song_features = Ok l /\
    loss (Spec.moved params delta) target song_features = Ok l' /\
    grad_loss params target song_features = Ok g /\
    l' - l = Spec.inner g delta.
Proof.
  intros Hp Hd Ht Hs Hi Ha Hsign.
  pose proof (moved_has_shape Hp Hd) as Hm.
  do 3 eexists.
  split; [apply (loss_as_residuals Hp Ht Hs)|].
  split; [apply (loss_as_residuals Hm Ht Hs)|].
  split; [apply (grad_loss_is_closed_gradient Hp Ht Hs)|].
  destruct (has_shape_cells Hs) as [Hsl Hsr].
  destruct (has_shape_cells Hd) as [Hdl Hdr].
  pose proof Hp as [_ [Hpn Hpc]]. pose proof Ht as [_ [Htn Htc]].
  unfold Spec.inner. cbn [Closed.gradient nrows ncols].
  rewrite Qcdiv_minus, <- big_sum_minus, ?Hpn, ?Hpc, ?Htn, ?Htc.
  rewrite big_sum_ext with
    (G := fun x => Spec.big_sum a (fun u =>
            Closed.s params target song_features x u
            * Spec.big_sum f (fun k =>
                Spec.entry song_features x k * Spec.entry delta u k))).
  2:{ intros x Hx. rewrite <- big_sum_minus. apply big_sum_ext. intros u Hu.
      rewrite !Qcabs_residual.
      rewrite (Hsign x u Hx Hu), (predicted_moved song_features x Hp Hd Hu).
      rewrite (@dot_big_sum (row x song_features) (row u delta) f).
      - unfold Spec.entry, row. ring.
      - apply (has_shape_row Hs Hx).
      - apply (has_shape_row Hd Hu). }
  rewrite big_sum_swap, <- big_sum_scale.
  apply big_sum_ext. intros u Hu.
  transitivity
    (Spec.big_sum f (fun k =>
       / Qc_of_nat (i * a)
       * Spec.big_sum i (fun x =>
           Closed.s params target song_features x u
           * Spec.entry song_features x k * Spec.entry delta u k))).
  - rewrite big_sum_scale. f_equal.
    rewrite big_sum_ext with
      (G := fun x => Spec.big_sum f (fun k =>
              Closed.s params target song_features x u
              * Spec.entry song_features x k * Spec.entry delta u k)).
    + apply big_sum_swap.
    + intros x Hx. rewrite <- big_sum_scale. apply big_sum_ext.
      intros k Hk. ring.
  - apply big_sum_ext. intros k Hk.
    rewrite (@gradient_entry params target song_features i a f u k)
      by assumption.
    rewrite big_sum_scale_r. unfold Qcdiv. ring.
Qed.

End Derivative.

(** ** When a call raises *)

Section ShapeErrors.

Context {T : Type} `{Scalar T}.

Lemma result_cases {A} (r : result A) :
  r = Raise IncompatibleShapes \/ exists v, r = Ok v.
Proof. destruct r as [v|[]]; eauto. Qed.

Lemma broadcast_shapes_incompatible (x y : nat) :
  broadcast_shapes x y = Raise IncompatibleShapes <-> incompatible x y.
Proof. apply broadcast_shapes_raises. Qed.


(** The predictor on well-formed arrays of any shapes. *)
Lemma predict_all_wf (song_data params : ndarray T) :
  wf_array song_data -> wf_array params ->
  predict_all song_data params =
  (n <- broadcast_shapes (ncols song_data) (ncols params) ;;
   Ok (mk_ndarray (nrows song_data) (nrows params)
         (map (fun song =>
                 map (fun pref =>
                        jnp_sum (map2 lax_mul (stretch n song) (stretch n pref)))
                     (cells params))
              (cells song_data)))).
Proof.
  intros [Hsl Hsr] [Hpl Hpr].
  unfold predict_all, vmap_0_None, calc_people_ratings.
  rewrite repeat_length.
  destruct (broadcast_shapes (ncols song_data) (ncols params)) as [n|e] eqn:Hb;
    cbn [bind]; [|reflexivity].
  rewrite mapM_total with
    (g := fun song =>
            map (fun pref =>
                   jnp_sum (map2 lax_mul (stretch n song) (stretch n pref)))
                (cells params)).
  - cbn [bind]. now rewrite length_map, Hpl.
  - eapply Forall_impl; [|exact Hsr]. cbv beta. intros song ->.
    now rewrite Hb.
Qed.

Lemma predict_all_raises (song_data params : ndarray T) :
  wf_array song_data -> wf_array params ->
  predict_all song_data params = Raise IncompatibleShapes <->
  incompatible (ncols song_data) (ncols params).
Proof.
  intros Hs Hp. rewrite (predict_all_wf Hs Hp).
  rewrite <- broadcast_shapes_incompatible.
  destruct (broadcast_shapes (ncols song_data) (ncols params)) as [n|[]];
    cbn [bind]; split; intros; try discriminate; reflexivity.
Qed.

Lemma jnp_sub_raises (x y : ndarray T) :
  jnp_sub x y = Raise IncompatibleShapes <->
  incompatible (nrows x) (nrows y) \/ incompatible (ncols x) (ncols y).
Proof.
  unfold jnp_sub. rewrite <- !broadcast_shapes_incompatible.
  destruct (broadcast_shapes (nrows x) (nrows y)) as [r|[]];
    destruct (broadcast_shapes (ncols x) (ncols y)) as [c|[]];
    cbn [bind]; split; intros; auto; try discriminate.
  destruct H0; discriminate.
Qed.

Lemma loss_raises (params target song_data : ndarray T) :
  wf_array params -> wf_array song_data ->
  loss params target song_data = Raise IncompatibleShapes <->
  shapes_incompatible params target song_data.
Proof.
  intros Hp Hs. unfold loss, shapes_incompatible.
  fold (predict_all song_data params).
  rewrite (predict_all_wf Hs Hp), <- broadcast_shapes_incompatible.
  destruct (broadcast_shapes (ncols song_data) (ncols params)) as [n|[]];
    cbn [bind].
  - unfold mean_abs_error.
    match goal with |- context [jnp_sub target ?p] => set (pred := p) end.
    pose proof (jnp_sub_raises target pred) as Hsub.
    subst pred. cbn [nrows ncols] in Hsub.
    destruct (jnp_sub target _) as [d|[]]; cbn [bind].
    + split; [discriminate|]. intros [Hx | Hx]; [discriminate|].
      apply Hsub in Hx. discriminate.
    + split; [|reflexivity]. intros _. right. now apply Hsub.
  - split; [|reflexivity]. intros _. now left.
Qed.

Lemma grad_loss_raises (params target song_data : ndarray T) :
  wf_array params -> wf_array song_data ->
  grad_loss params target song_data = Raise IncompatibleShapes <->
  shapes_incompatible params target song_data.
Proof.
  intros Hp Hs. unfold grad_loss, shapes_incompatible.
  fold (predict_all song_data params).
  rewrite (predict_all_wf Hs Hp), <- broadcast_shapes_incompatible.
  destruct (broadcast_shapes (ncols song_data) (ncols params)) as [n|[]];
    cbn [bind].
  - match goal with |- context [jnp_sub target ?p] => set (pred := p) end.
    pose proof (jnp_sub_raises target pred) as Hsub.
    subst pred. cbn [nrows ncols] in Hsub.
    destruct (jnp_sub target _) as [d|[]]; cbn [bind].
    + split; [discriminate|]. intros [Hx | Hx]; [discriminate|].
      apply Hsub in Hx. discriminate.
    + split; [|reflexivity]. intros _. right. now apply Hsub.
  - split; [|reflexivity]. intros _. now left.
Qed.

Lemma ok_iff_not_raise {A} (r : result A) (P : Prop) :
  (r = Raise IncompatibleShapes <-> P) ->
  ((exists v, r = Ok v) <-> ~ P).
Proof.
  intros [H1 H2]. destruct (result_cases r) as [Hr | [v Hv]].
  - split; [intros [v Hv]; congruence | intros Hn; elim Hn; auto].
  - split; [intros _ HP; specialize (H2 HP); congruence | eauto].
Qed.

(** A shape error is not caught: it leaves the training cell. *)
Lemma training_cell_raises (n : nat) (lr : T)
    (params target song_data : ndarray T) :
  wf_array params -> wf_array song_data ->
  shapes_incompatible params target song_data ->
  training_cell n lr params target song_data = Raise IncompatibleShapes.
Proof.
  intros Hp Hs Hinc. apply (loss_raises target Hp Hs) in Hinc.
  unfold training_cell, range. destruct n as [|n]; cbn [seq for_loop bind].
  - cbn [init_state st_params]. now rewrite Hinc.
  - unfold training_body at 1, gradient_step.
    cbn [init_state st_params]. now rewrite Hinc.
Qed.

End ShapeErrors.

(** * The claims *)

Ltac shape_tac :=
  repeat split; simpl; try reflexivity; repeat constructor.

(** Equality of computed values that contain rationals. *)
Ltac qc_eq :=
  vm_compute;
  repeat first [ apply Qc_is_canon; vm_compute; reflexivity
               | reflexivity
               | progress f_equal ].

(** ** The training loop runs a fixed number of rounds *)

(** C5.  A training run on arrays of agreeing shapes executes the body of its
    loop exactly [n] times, whatever the element type and whatever values the
    loss takes: there is no exit on convergence.  It then prints the final
    loss and ends.  With the notebook's [numrounds] that is 600 rounds. *)
Theorem training_executes_numrounds {T : Type} `{Scalar T} (n : nat) (lr : T)
    (people_params song_ratings song_features : ndarray T) (i a f : nat) :
  has_shape people_params a f ->
  has_shape song_ratings i a ->
  has_shape song_features i f ->
  exists st final,
    training_cell n lr people_params song_ratings song_features = Ok st /\
    rounds st = n /\
    length (updates st) = n /\
    loss (st_params st) song_ratings song_features = Ok final /\
    (exists out, stdout st = out ++ [FinalLoss final]) /\
    (n = numrounds -> rounds st = 600).
Proof.
  intros Hp Ht Hs. unfold training_cell, range.
  destruct (training_loop_shaped lr Ht Hs n (k := 0) (init_state people_params))
    as (st & Hrun & Hshape & Hr & (ext & Hext & Hlen) & Hout & _ & _);
    [exact Hp | reflexivity |].
  rewrite Hrun. cbn [bind].
  pose proof (loss_shaped Hshape Ht Hs) as Hloss. rewrite Hloss. cbn [bind].
  eexists _, _. split; [reflexivity|].
  unfold print; cbn [rounds updates stdout st_params].
  simpl in Hr, Hext. rewrite <- Hext in Hlen.
  split; [exact Hr|]. split; [exact Hlen|]. split; [exact Hloss|].
  split; [eexists; reflexivity|]. intros ->. exact Hr.
Qed.

Lemma training_executes_numrounds_witness :
  exists st final,
    training_cell numrounds learning_rate
      example_params example_ratings example_songs = Ok st /\
    rounds st = numrounds /\
    length (updates st) = numrounds /\
    loss (st_params st) example_ratings example_songs = Ok final /\
    (exists out, stdout st = out ++ [FinalLoss final]) /\
    (numrounds = numrounds -> rounds st = 600).
Proof.
  apply (@training_executes_numrounds Qc _ numrounds learning_rate
           example_params example_ratings example_songs 3 2 2); shape_tac.
Defined.

(** ** Each person is fitted independently *)

(** C10.  In a training run on arrays of agreeing shapes, the fitted row of
    person [u] is obtained by iterating, from the initial row of [u], a step
    that reads only that row, the column of [u] in the ratings, the song
    features, the learning rate and the dimensions.  Hence two runs of the
    same shapes that agree on the initial row and on the rating column of [u]
    produce the same fitted row for [u], whatever the other people's ratings
    and initial parameters are. *)
Theorem training_row_noninterference {T : Type} `{Scalar T} (n : nat) (lr : T)
    (params1 params2 ratings1 ratings2 song_features : ndarray T)
    (i a f u : nat) :
  has_shape params1 a f -> has_shape params2 a f ->
  has_shape ratings1 i a -> has_shape ratings2 i a ->
  has_shape song_features i f ->
  u < a ->
  row u params1 = row u params2 ->
  column u ratings1 = column u ratings2 ->
  exists st1 st2,
    training_cell n lr params1 ratings1 song_features = Ok st1 /\
    training_cell n lr params2 ratings2 song_features = Ok st2 /\
    row u (st_params st1) = row u (st_params st2) /\
    row u (st_params st1) =
      Nat.iter n (agent_step (i * a) lr (cells song_features) (column u ratings1))
               (row u params1).
Proof.
  intros Hp1 Hp2 Ht1 Ht2 Hs Hu Hrow Hcol. unfold training_cell, range.
  destruct (training_loop_shaped lr Ht1 Hs n (k := 0) (init_state params1))
    as (st1 & Hrun1 & Hshape1 & _ & _ & _ & _ & Hrow1);
    [exact Hp1 | reflexivity |].
  destruct (training_loop_shaped lr Ht2 Hs n (k := 0) (init_state params2))
    as (st2 & Hrun2 & Hshape2 & _ & _ & _ & _ & Hrow2);
    [exact Hp2 | reflexivity |].
  rewrite Hrun1, Hrun2. cbn [bind].
  rewrite (loss_shaped Hshape1 Ht1 Hs), (loss_shaped Hshape2 Ht2 Hs).
  cbn [bind]. eexists _, _. split; [reflexivity|]. split; [reflexivity|].
  unfold print; cbn [st_params].
  rewrite (Hrow1 u Hu), (Hrow2 u Hu). cbn [init_state st_params].
  rewrite <- Hrow, <- Hcol. split; reflexivity.
Qed.

Lemma training_row_noninterference_witness :
  exists st1 st2,
    training_cell numrounds learning_rate example_params example_ratings
      example_songs = Ok st1 /\
    training_cell numrounds learning_rate other_params other_ratings
      example_songs = Ok st2 /\
    row 0 (st_params st1) = row 0 (st_params st2) /\
    row 0 (st_params st1) =
      Nat.iter numrounds
        (agent_step (3 * 2) learning_rate (cells example_songs)
           (column 0 example_ratings))
        (row 0 example_params).
Proof.
  apply (@training_row_noninterference Qc _ numrounds learning_rate
           example_params other_params example_ratings other_ratings
           example_songs 3 2 2 0); try lia; shape_tac.
Defined.

(** ** The rating predictor *)

(** C2.  On feature and preference vectors of equal length the predictor
    returns their dot product, and entry [(x,u)] of the batched prediction is
    the prediction for row [x] of the features and row [u] of the parameters:
    every song is scored against every person, in an array of one row for
    each song and one column for each person. *)
Theorem predict_all_entries (song_features params : ndarray Qc)
    (i a f x u : nat) (fv pv : list Qc) :
  has_shape song_features i f -> has_shape params a f ->
  x < i -> u < a ->
  length fv = f -> length pv = f ->
  calc_people_ratings fv (array_of_rows f [pv]) = Ok [Spec.dot fv pv] /\
  exists pred,
    predict_all song_features params = Ok pred /\
    has_shape pred i a /\
    calc_people_ratings (row x song_features) (array_of_rows f [row u params])
      = Ok [Spec.entry pred x u] /\
    Spec.entry pred x u = Spec.dot (row x song_features) (row u params).
Proof.
  intros Hs Hp Hx Hu Hfv Hpv.
  assert (Hone : forall v w : list Qc, length v = f -> length w = f ->
            calc_people_ratings v (array_of_rows f [w]) = Ok [Spec.dot v w]).
  { intros v w Hv Hw. rewrite calc_people_ratings_shaped.
    - simpl. qc_ops. now rewrite jnp_sum_dot.
    - exact Hv.
    - simpl. constructor; [exact Hw | constructor]. }
  split; [now apply Hone|].
  destruct (has_shape_cells Hs) as [Hsl _].
  destruct (has_shape_cells Hp) as [Hpl _].
  eexists. split; [apply (predict_all_shaped Hs Hp)|].
  split; [apply (predict_all_has_shape Hs Hp), (predict_all_shaped Hs Hp)|].
  assert (He : Spec.entry
                 (mk_ndarray i a (ratings (cells song_features) (cells params)))
                 x u = Spec.dot (row x song_features) (row u params)).
  { unfold Spec.entry. simpl. apply entry_ratings; lia. }
  rewrite He. split; [|reflexivity].
  apply Hone; eapply has_shape_row; eauto.
Qed.

Lemma predict_all_entries_witness :
  calc_people_ratings [Qz 1; Qz 1] (array_of_rows 2 [[Qz (-1); Qz 4]])
    = Ok [Spec.dot [Qz 1; Qz 1] [Qz (-1); Qz 4]] /\
  exists pred,
    predict_all example_songs example_params = Ok pred /\
    has_shape pred 3 2 /\
    calc_people_ratings (row 2 example_songs)
      (array_of_rows 2 [row 1 example_params])
      = Ok [Spec.entry pred 2 1] /\
    Spec.entry pred 2 1 = Spec.dot (row 2 example_songs) (row 1 example_params).
Proof.
  apply (@predict_all_entries example_songs example_params 3 2 2 2 1);
    try (simpl; lia); shape_tac.
Defined.

(** C7.  The batched prediction, the [vmap] over the songs of the
    elementwise product summed over the features, is the matrix product of
    the song features by the transpose of the parameters. *)
Theorem predict_all_is_matmul (song_features params : ndarray Qc)
    (i a f : nat) :
  has_shape song_features i f -> has_shape params a f ->
  vmap_0_None calc_people_ratings song_features params =
  Ok (Spec.matmul song_features (Spec.transpose params)).
Proof.
  intros Hs Hp. fold (predict_all song_features params).
  rewrite (predict_all_shaped Hs Hp).
  destruct (has_shape_cells Hs) as [Hsl Hsr].
  destruct (has_shape_cells Hp) as [Hpl Hpr].
  destruct Hs as [_ [Hsn Hsc]], Hp as [_ [Hpn Hpc]].
  rewrite Forall_forall in Hsr, Hpr.
  unfold Spec.matmul. cbn [Spec.transpose ncols].
  rewrite Hsn, Hpn, Hsc. do 2 f_equal.
  unfold ratings. rewrite (map_as_seq _ (cells song_features) []), Hsl.
  apply map_ext_in. intros x Hx. apply in_seq in Hx.
  rewrite (map_as_seq _ (cells params) []), Hpl.
  apply map_ext_in. intros u Hu. apply in_seq in Hu.
  qc_ops. rewrite jnp_sum_dot.
  rewrite dot_big_sum with (n := f);
    [| apply Hsr, nth_In; lia | apply Hpr, nth_In; lia].
  apply big_sum_ext. intros k Hk.
  rewrite entry_transpose by lia. reflexivity.
Qed.

Lemma predict_all_is_matmul_witness :
  vmap_0_None calc_people_ratings example_songs example_params =
  Ok (Spec.matmul example_songs (Spec.transpose example_params)).
Proof.
  apply (@predict_all_is_matmul example_songs example_params 3 2 2); shape_tac.
Defined.

(** ** The loss *)

(** C3.  The loss of two arrays of the same shape, with at least one entry,
    is the mean of the absolute values of their elementwise differences over
    all the entries; [loss] applies it to the batched prediction and the
    target.  (The mean of no entry is not a number, so empty arrays are left
    out.) *)
Theorem loss_is_mean_absolute_error
    (params target song_features predicted : ndarray Qc) (i a f : nat) :
  has_shape params a f -> has_shape target i a ->
  has_shape song_features i f -> has_shape predicted i a ->
  0 < i -> 0 < a ->
  mean_abs_error target predicted =
    Ok (Spec.mean_absolute_error predicted target) /\
  exists pred,
    predict_all song_features params = Ok pred /\
    loss params target song_features =
      Ok (Spec.mean_absolute_error pred target).
Proof.
  intros Hp Ht Hs Hpred _ _.
  split; [apply (mean_abs_error_shaped Ht Hpred)|].
  eexists. split; [apply (predict_all_shaped Hs Hp)|].
  unfold loss. fold (predict_all song_features params).
  rewrite (predict_all_shaped Hs Hp). cbn [bind].
  apply (mean_abs_error_shaped Ht).
  apply (predict_all_has_shape Hs Hp), (predict_all_shaped Hs Hp).
Qed.

Lemma loss_is_mean_absolute_error_witness :
  mean_abs_error example_ratings other_ratings =
    Ok (Spec.mean_absolute_error other_ratings example_ratings) /\
  exists pred,
    predict_all example_songs example_params = Ok pred /\
    loss example_params example_ratings example_songs =
      Ok (Spec.mean_absolute_error pred example_ratings).
Proof.
  apply (@loss_is_mean_absolute_error example_params example_ratings
           example_songs other_ratings 3 2 2); try lia; shape_tac.
Defined.

(** C6, as the specification states it, fails in binary32, the dtype the
    notebook computes with.  The loss of an array against itself is NaN, not
    zero, when the array has an infinite entry or no entry at all.  And two
    arrays of finite entries that differ have the loss zero when the mean of
    their differences underflows: the arrays [[2^-149, 0]] and [[0, 0]]
    differ by the smallest positive number, whose half rounds to zero.  The
    same happens to [loss] on parameters whose predictions are these. *)
Lemma loss_zero_fails_in_binary32 :
  mean_abs_error (mk_ndarray 1 1 [[S754_infinity false]])
                 (mk_ndarray 1 1 [[S754_infinity false]]) = Ok S754_nan /\
  mean_abs_error (mk_ndarray 0 2 ([] : list (list F32.t)))
                 (mk_ndarray 0 2 []) = Ok S754_nan /\
  has_shape f32_tiny 1 2 /\ has_shape f32_nothing 1 2 /\
  all_finite f32_tiny = true /\ all_finite f32_nothing = true /\
  f32_tiny <> f32_nothing /\
  mean_abs_error f32_tiny f32_nothing = Ok (S754_zero false) /\
  predict_all (mk_ndarray 1 1 [[F32.of_Z 1]])
              (mk_ndarray 2 1 [[S754_finite false 1 (-149)]; [F32.of_Z 0]])
    = Ok f32_tiny /\
  loss (mk_ndarray 2 1 [[S754_finite false 1 (-149)]; [F32.of_Z 0]])
       f32_nothing (mk_ndarray 1 1 [[F32.of_Z 1]]) = Ok (S754_zero false).
Proof.
  split; [reflexivity|]. split; [reflexivity|].
  split; [shape_tac|]. split; [shape_tac|].
  split; [reflexivity|]. split; [reflexivity|].
  split; [discriminate|]. split; [reflexivity|].
  split; reflexivity.
Qed.

(** C6, amended.  In exact arithmetic, for arrays of the same shape with at
    least one entry: the loss of an array against itself is zero, the loss
    of two arrays is never negative, and it is zero exactly when the two
    arrays are equal entry by entry.  In terms of [loss] itself: its value
    is never negative, and it is zero exactly when the prediction is the
    target.  Rounding, non-finite entries and arrays without entries are
    outside this statement: in binary32 they make it fail. *)
Theorem loss_zero_iff_equal (x y params song_features : ndarray Qc)
    (r c f : nat) :
  has_shape x r c -> has_shape y r c ->
  has_shape params c f -> has_shape song_features r f ->
  0 < r -> 0 < c ->
  mean_abs_error x x = Ok (Q2Qc 0) /\
  (exists v,
     mean_abs_error x y = Ok v /\
     (Q2Qc 0 <= v)%Qc /\
     (v = Q2Qc 0 <-> x = y) /\
     (x = y <->
      forall i u, i < r -> u < c -> Spec.entry x i u = Spec.entry y i u)) /\
  (exists w,
     loss params y song_features = Ok w /\
     (Q2Qc 0 <= w)%Qc /\
     (w = Q2Qc 0 <-> predict_all song_features params = Ok y)).
Proof.
  intros Hx Hy Hp Hs Hr Hc.
  assert (Hn : 0 < r * c) by (apply Nat.mul_pos_pos; assumption).
  pose proof Hx as [Hxw [Hxn Hxc]]. pose proof Hy as [Hyw [Hyn Hyc]].
  split; [|split].
  - rewrite (mean_abs_error_shaped Hx Hx). f_equal.
    apply mean_absolute_error_diag.
  - exists (Spec.mean_absolute_error y x).
    split; [apply (mean_abs_error_shaped Hx Hy)|].
    split; [apply mean_absolute_error_nonneg; rewrite Hxn, Hxc; exact Hn|].
    split; split.
    + intros Hz. symmetry. now apply (mean_absolute_error_zero Hy Hx).
    + intros ->. apply mean_absolute_error_diag.
    + intros -> i u _ _. reflexivity.
    + now apply entries_eq.
  - pose proof (predict_all_shaped Hs Hp) as Hpred.
    pose proof (predict_all_has_shape Hs Hp Hpred) as Hshape.
    unfold loss. fold (predict_all song_features params).
    rewrite Hpred. cbn [bind].
    rewrite (mean_abs_error_shaped Hy Hshape).
    eexists. split; [reflexivity|].
    split; [apply mean_absolute_error_nonneg; rewrite Hyn, Hyc; exact Hn|].
    split.
    + intros Hz. f_equal. now apply (mean_absolute_error_zero Hshape Hy).
    + intros [= ->]. apply mean_absolute_error_diag.
Qed.

Lemma loss_zero_iff_equal_witness :
  mean_abs_error example_ratings example_ratings = Ok (Q2Qc 0) /\
  (exists v,
     mean_abs_error example_ratings other_ratings = Ok v /\
     (Q2Qc 0 <= v)%Qc /\
     (v = Q2Qc 0 <-> example_ratings = other_ratings) /\
     (example_ratings = other_ratings <->
      forall i u, i < 3 -> u < 2 ->
        Spec.entry example_ratings i u = Spec.entry other_ratings i u)) /\
  (exists w,
     loss example_params other_ratings example_songs = Ok w /\
     (Q2Qc 0 <= w)%Qc /\
     (w = Q2Qc 0 <-> predict_all example_songs example_params = Ok other_ratings)).
Proof.
  apply (@loss_zero_iff_equal example_ratings other_ratings example_params
           example_songs 3 2 2); try lia; shape_tac.
Defined.

(** ** The gradient *)

(** C1, as the specification states it, fails where a residual is exactly
    zero.  In the scenario the predictions of song 1 for person 0 and of song
    2 for person 1 are the ratings, so that the specification gives these two
    residuals the factor 0; the reverse pass gives them the factor -1, and
    the array that [grad(loss)] returns is not the closed form of the
    specification. *)
Lemma grad_loss_departs_at_zero_residual :
  has_shape example_params 2 2 /\ has_shape example_ratings 3 2 /\
  has_shape example_songs 3 2 /\
  Spec.predicted example_songs example_params 1 0
    = Spec.entry example_ratings 1 0 /\
  Spec.s example_params example_ratings example_songs 1 0 = Q2Qc 0 /\
  Spec.gradient example_params example_ratings example_songs =
    mk_ndarray 2 2 [[Q2Qc 0; Q2Qc (-1 # 6)]; [Q2Qc (-1 # 6); Q2Qc (-1 # 6)]] /\
  grad_loss example_params example_ratings example_songs =
    Ok (mk_ndarray 2 2
          [[Q2Qc 0; Q2Qc (-1 # 3)]; [Q2Qc (-1 # 3); Q2Qc (-1 # 3)]]) /\
  grad_loss example_params example_ratings example_songs <>
    Ok (Spec.gradient example_params example_ratings example_songs).
Proof.
  split; [shape_tac|]. split; [shape_tac|]. split; [shape_tac|].
  split; [qc_eq|]. split; [qc_eq|]. split; [qc_eq|]. split; [qc_eq|].
  intros Heq.
  assert (Hentry :
    Spec.entry (Closed.gradient example_params example_ratings example_songs)
      0 1 =
    Spec.entry (Spec.gradient example_params example_ratings example_songs)
      0 1).
  { rewrite (@grad_loss_is_closed_gradient example_params example_ratings
               example_songs 3 2 2) in Heq by shape_tac.
    now injection Heq as ->. }
  vm_compute in Hentry. discriminate Hentry.
Qed.

(** C1, amended.  For parameters, ratings and song features of agreeing
    shapes, with at least one song and one person, the gradient that
    [grad(loss)] returns is a closed form of the shape the specification
    gives: the row of person [u] is [1/(I*A)] times the sum over the songs
    [i] of [s(i,u)] times the features of song [i].  The factor [s(i,u)] is
    [1] where [predicted(i,u) > target(i,u)] and [-1] where
    [predicted(i,u) <= target(i,u)]: it is the sign of the residual
    wherever the residual is not zero, and [-1], not [0], at a residual that
    is exactly zero.  Where no residual is zero the gradient is the closed
    form of the specification. *)
Theorem grad_loss_closed_form (params target song_features : ndarray Qc)
    (i a f : nat) :
  has_shape params a f -> has_shape target i a ->
  has_shape song_features i f ->
  0 < i -> 0 < a ->
  grad_loss params target song_features =
    Ok (Closed.gradient params target song_features) /\
  (forall x u,
     ((Spec.entry target x u < Spec.predicted song_features params x u)%Qc ->
      Closed.s params target song_features x u = Q2Qc 1) /\
     ((Spec.predicted song_features params x u <= Spec.entry target x u)%Qc ->
      Closed.s params target song_features x u = Qcopp (Q2Qc 1)) /\
     (Spec.predicted song_features params x u <> Spec.entry target x u ->
      Closed.s params target song_features x u =
      Spec.s params target song_features x u)) /\
  ((forall x u, x < i -> u < a ->
      Spec.predicted song_features params x u <> Spec.entry target x u) ->
   grad_loss params target song_features =
     Ok (Spec.gradient params target song_features)).
Proof.
  intros Hp Ht Hs _ _.
  split; [apply (grad_loss_is_closed_gradient Hp Ht Hs)|]. split.
  - intros x u. split; [|split].
    + intros Hlt. now apply closed_s_above.
    + intros Hle. now apply closed_s_below.
    + intros Hne. now apply closed_s_is_sign.
  - intros Hne. rewrite (grad_loss_is_closed_gradient Hp Ht Hs). f_equal.
    destruct Hp as [_ [Hpn Hpc]], Ht as [_ [Htn Htc]].
    unfold Closed.gradient, Spec.gradient. f_equal.
    apply map_ext_in. intros u Hu. apply map_ext_in. intros k _.
    f_equal. apply big_sum_ext. intros x Hx. f_equal.
    apply closed_s_is_sign, Hne; [lia|].
    apply in_seq in Hu. lia.
Qed.

Lemma grad_loss_closed_form_witness :
  grad_loss example_params other_ratings example_songs =
    Ok (Closed.gradient example_params other_ratings example_songs) /\
  (forall x u,
     ((Spec.entry other_ratings x u
       < Spec.predicted example_songs example_params x u)%Qc ->
      Closed.s example_params other_ratings example_songs x u = Q2Qc 1) /\
     ((Spec.predicted example_songs example_params x u
       <= Spec.entry other_ratings x u)%Qc ->
      Closed.s example_params other_ratings example_songs x u
        = Qcopp (Q2Qc 1)) /\
     (Spec.predicted example_songs example_params x u
        <> Spec.entry other_ratings x u ->
      Closed.s example_params other_ratings example_songs x u =
      Spec.s example_params other_ratings example_songs x u)) /\
  ((forall x u, x < 3 -> u < 2 ->
      Spec.predicted example_songs example_params x u
        <> Spec.entry other_ratings x u) ->
   grad_loss example_params other_ratings example_songs =
     Ok (Spec.gradient example_params other_ratings example_songs)).
Proof.
  apply (@grad_loss_closed_form example_params other_ratings example_songs
           3 2 2); try lia; shape_tac.
Defined.

(** ** Shape errors *)

(** C8, as the specification states it, fails: songs with a single feature
    are scored against people with two preferences, and a single row of
    ratings is compared with the ratings predicted for three songs; the
    predictor, the loss and the gradient all return a value. *)
Lemma shape_mismatch_is_broadcast :
  has_shape one_feature_songs 3 1 /\ has_shape example_params 2 2 /\
  has_shape one_row_ratings 1 2 /\ has_shape example_songs 3 2 /\
  ncols one_feature_songs <> ncols example_params /\
  nrows one_row_ratings <> nrows example_songs /\
  predict_all one_feature_songs example_params =
    Ok (mk_ndarray 3 2 [[Qz 10; Qz 6]; [Qz 15; Qz 9]; [Qz 25; Qz 15]]) /\
  loss example_params one_row_ratings example_songs = Ok (Q2Qc (5 # 2)) /\
  is_ok (grad_loss example_params one_row_ratings example_songs) = true.
Proof.
  split; [shape_tac|]. split; [shape_tac|]. split; [shape_tac|].
  split; [shape_tac|]. split; [discriminate|]. split; [discriminate|].
  split; [qc_eq|]. split; [qc_eq|]. vm_compute. reflexivity.
Qed.

(** Songs with three features against people with two preferences do raise. *)
Example shape_mismatch_raises :
  predict_all (mk_ndarray 1 3 [[Qz 1; Qz 0; Qz 1]]) example_params
    = Raise IncompatibleShapes /\
  loss example_params example_ratings (mk_ndarray 3 3 [])
    = Raise IncompatibleShapes.
Proof. split; reflexivity. Qed.

(** C8, amended.  On well-formed arrays, a call to the predictor, to the loss
    or to the gradient raises the shape error exactly when two extents that
    it compares differ and neither of them is 1; in every other case,
    including the one where they differ and one of them is 1, it returns a
    value.  The error is not caught: it leaves the training cell. *)
Theorem shape_error_iff_not_broadcastable {T : Type} `{Scalar T}
    (n : nat) (lr : T) (params target song_data : ndarray T) :
  wf_array params -> wf_array target -> wf_array song_data ->
  (shapes_incompatible params target song_data ->
   training_cell n lr params target song_data = Raise IncompatibleShapes) /\
  (predict_all song_data params = Raise IncompatibleShapes <->
   incompatible (ncols song_data) (ncols params)) /\
  ((exists pred, predict_all song_data params = Ok pred) <->
   ~ incompatible (ncols song_data) (ncols params)) /\
  (loss params target song_data = Raise IncompatibleShapes <->
   shapes_incompatible params target song_data) /\
  ((exists l, loss params target song_data = Ok l) <->
   ~ shapes_incompatible params target song_data) /\
  (grad_loss params target song_data = Raise IncompatibleShapes <->
   shapes_incompatible params target song_data) /\
  ((exists g, grad_loss params target song_data = Ok g) <->
   ~ shapes_incompatible params target song_data).
Proof.
  intros Hp _ Hs.
  pose proof (predict_all_raises Hs Hp) as H1.
  pose proof (loss_raises target Hp Hs) as H2.
  pose proof (grad_loss_raises target Hp Hs) as H3.
  split; [apply (training_cell_raises n lr Hp Hs)|].
  split; [exact H1|]. split; [exact (ok_iff_not_raise H1)|].
  split; [exact H2|]. split; [exact (ok_iff_not_raise H2)|].
  split; [exact H3|]. exact (ok_iff_not_raise H3).
Qed.

Lemma shape_error_iff_not_broadcastable_witness :
  (shapes_incompatible example_params one_row_ratings one_feature_songs ->
   training_cell numrounds learning_rate example_params one_row_ratings
     one_feature_songs = Raise IncompatibleShapes) /\
  (predict_all one_feature_songs example_params = Raise IncompatibleShapes <->
   incompatible (ncols one_feature_songs) (ncols example_params)) /\
  ((exists pred, predict_all one_feature_songs example_params = Ok pred) <->
   ~ incompatible (ncols one_feature_songs) (ncols example_params)) /\
  (loss example_params one_row_ratings one_feature_songs
     = Raise IncompatibleShapes <->
   shapes_incompatible example_params one_row_ratings one_feature_songs) /\
  ((exists l, loss example_params one_row_ratings one_feature_songs = Ok l) <->
   ~ shapes_incompatible example_params one_row_ratings one_feature_songs) /\
  (grad_loss example_params one_row_ratings one_feature_songs
     = Raise IncompatibleShapes <->
   shapes_incompatible example_params one_row_ratings one_feature_songs) /\
  ((exists g, grad_loss example_params one_row_ratings one_feature_songs = Ok g) <->
   ~ shapes_incompatible example_params one_row_ratings one_feature_songs).
Proof.
  apply (@shape_error_iff_not_broadcastable Qc _ numrounds learning_rate
           example_params one_row_ratings one_feature_songs); shape_tac.
Defined.



(** ** Non-finite values *)

(** The mean of no entry is not a number: on binary32 the loss of arrays
    without rows is NaN.  This is why the claims about the loss and the
    gradient are stated for arrays with at least one entry. *)
Example loss_of_no_entry :
  loss (mk_ndarray 1 1 [[F32.of_Z 0]]) (mk_ndarray 0 1 [])
       (mk_ndarray 0 1 [] : ndarray F32.t) = Ok S754_nan.
Proof. vm_compute. reflexivity. Qed.

(** C9, as the specification states it, fails.  In binary32, with one song of
    feature 4 rated 1, initial preference 0 and a learning rate of [2^127],
    the first update overflows the preference to infinity; the loss of round
    1 is infinite and from round 2 on the loss and the gradient are NaN.  The
    run nevertheless executes its 600 rounds and returns normally, with NaN
    parameters. *)
Lemma anomaly_propagates :
  exists st,
    training_cell numrounds f32_learning_rate f32_params f32_ratings f32_songs
      = Ok st /\
    fst (nth 1 (updates st) no_update) = S754_infinity false /\
    anomaly (nth 1 (updates st) no_update) = true /\
    length (updates st) = 600 /\
    rounds st = 600 /\
    st_params st = mk_ndarray 1 1 [[S754_nan]] /\
    ~ stops_at_anomaly
        (training_cell numrounds f32_learning_rate f32_params f32_ratings
           f32_songs).
Proof.
  destruct (training_cell numrounds f32_learning_rate f32_params f32_ratings
              f32_songs) as [st|e] eqn:Hrun;
    [| vm_compute in Hrun; discriminate].
  exists st. split; [reflexivity|].
  vm_compute in Hrun. injection Hrun as <-.
  split; [vm_compute; reflexivity|]. split; [vm_compute; reflexivity|].
  split; [vm_compute; reflexivity|]. split; [vm_compute; reflexivity|].
  split; [vm_compute; reflexivity|].
  intros Hstop. specialize (Hstop _ eq_refl 1).
  vm_compute in Hstop.
  assert (Habs : 600 = 2) by (apply Hstop; [lia | reflexivity]).
  discriminate Habs.
Qed.

(** C9, amended.  An optimizer run does not examine the values it computes.
    On arrays of agreeing shapes, whatever the element type and whether or
    not the losses and gradients are finite, the training cell executes its
    [n] rounds and returns, each round assigning the parameters once; its
    only output is the loss of every 50th round and the final loss.  The
    personalization cell executes its [n] rounds and returns as well. *)
Theorem runs_ignore_anomalies {T : Type} `{Scalar T} (n r : nat) (lr : T)
    (params ratings song_features new_params new_ratings : ndarray T)
    (i a f m : nat) :
  has_shape params a f -> has_shape ratings i a ->
  has_shape song_features i f ->
  has_shape new_params m f -> has_shape new_ratings r m -> r <= i ->
  (exists st final,
     training_cell n lr params ratings song_features = Ok st /\
     rounds st = n /\
     length (updates st) = n /\
     stdout st =
       map (fun j => IterationLoss j (fst (nth j (updates st) no_update)))
           (filter reported (range n))
       ++ [FinalLoss final]) /\
  (exists st,
     personalization_cell n lr r new_params new_ratings song_features = Ok st /\
     rounds st = n).
Proof.
  intros Hp Ht Hs Hnp Hnr Hr. split.
  - unfold training_cell, range.
    destruct (training_loop_shaped lr Ht Hs n (k := 0) (init_state params))
      as (st & Hrun & Hshape & Hrounds & (ext & Hext & Hlen) & Hout & _ & _);
      [exact Hp | reflexivity |].
    rewrite Hrun. cbn [bind].
    rewrite (loss_shaped Hshape Ht Hs). cbn [bind].
    eexists _, _. split; [reflexivity|].
    unfold print; cbn [rounds updates stdout st_params].
    simpl in Hrounds, Hext, Hout. rewrite <- Hext in Hlen.
    split; [exact Hrounds|]. split; [exact Hlen|]. now rewrite Hout.
  - unfold personalization_cell, range.
    pose proof (slice_rows_has_shape Hs Hr) as Hslice.
    destruct (personalization_loop_shaped lr Hnr Hslice n 0
                (init_state new_params) Hnp)
      as (st & Hrun & Hshape & Hrounds & _).
    rewrite Hrun. cbn [bind].
    rewrite (loss_shaped Hshape Hnr Hslice). cbn [bind].
    eexists. split; [reflexivity|]. exact Hrounds.
Qed.

Lemma runs_ignore_anomalies_witness :
  (exists st final,
     training_cell numrounds f32_learning_rate f32_params f32_ratings f32_songs
       = Ok st /\
     rounds st = numrounds /\
     length (updates st) = numrounds /\
     stdout st =
       map (fun j => IterationLoss j (fst (nth j (updates st) no_update)))
           (filter reported (range numrounds))
       ++ [FinalLoss final]) /\
  (exists st,
     personalization_cell numrounds f32_learning_rate 1
       f32_params f32_ratings f32_songs = Ok st /\
     rounds st = numrounds).
Proof.
  apply (@runs_ignore_anomalies F32.t _ numrounds 1 f32_learning_rate
           f32_params f32_ratings f32_songs f32_params f32_ratings 1 1 1 1);
    try lia; shape_tac.
Defined.

(** ** One update in each round *)

(** In the training cell the printing is silent: the fitted parameters are
    those of [n] updates and nothing else. *)
Lemma training_cell_params {T : Type} `{Scalar T} (n : nat) (lr : T)
    (params ratings song_features : ndarray T) (i a f : nat) :
  has_shape params a f -> has_shape ratings i a ->
  has_shape song_features i f ->
  exists st,
    training_cell n lr params ratings song_features = Ok st /\
    length (updates st) = rounds st /\
    iterate n (descent_step lr ratings song_features) params =
      Ok (st_params st).
Proof.
  intros Hp Ht Hs. unfold training_cell, range.
  destruct (training_loop_shaped lr Ht Hs n (k := 0) (init_state params))
    as (st & Hrun & Hshape & Hrounds & (ext & Hext & Hlen) & _ & Hit & _);
    [exact Hp | reflexivity |].
  rewrite Hrun. cbn [bind]. rewrite (loss_shaped Hshape Ht Hs). cbn [bind].
  eexists. split; [reflexivity|].
  unfold print; cbn [rounds updates st_params].
  simpl in Hrounds, Hext. rewrite <- Hext in Hlen.
  split; [lia | exact Hit].
Qed.

(** In the personalization cell every round whose loss is printed assigns
    the parameters a second time. *)
Lemma personalization_cell_updates {T : Type} `{Scalar T} (n r : nat) (lr : T)
    (new_params new_ratings song_features : ndarray T) (i f m : nat) :
  has_shape song_features i f ->
  has_shape new_params m f -> has_shape new_ratings r m -> r <= i ->
  exists st,
    personalization_cell n lr r new_params new_ratings song_features = Ok st /\
    rounds st = n /\
    length (updates st) = n + length (filter reported (range n)).
Proof.
  intros Hs Hnp Hnr Hr. unfold personalization_cell, range.
  pose proof (slice_rows_has_shape Hs Hr) as Hslice.
  destruct (personalization_loop_shaped lr Hnr Hslice n 0
              (init_state new_params) Hnp)
    as (st & Hrun & Hshape & Hrounds & Hupd).
  rewrite Hrun. cbn [bind].
  rewrite (loss_shaped Hshape Hnr Hslice). cbn [bind].
  eexists. split; [reflexivity|]. split; [exact Hrounds | exact Hupd].
Qed.

(** C4 fails on the personalization cell.  On the scenario with ratings far
    from the predictions, one round of the training cell assigns the
    parameters once, and one round of the personalization cell, whose loss is
    printed, assigns them twice: it returns the parameters that the training
    cell reaches in two rounds. *)
Theorem personalization_round_updates_twice :
  exists st1 st2 stp,
    training_cell 1 learning_rate example_params far_ratings example_songs
      = Ok st1 /\
    training_cell 2 learning_rate example_params far_ratings example_songs
      = Ok st2 /\
    personalization_cell 1 learning_rate new_ratings
      example_params far_ratings example_songs = Ok stp /\
    rounds st1 = 1 /\ length (updates st1) = 1 /\
    rounds stp = 1 /\ length (updates stp) = 2 /\
    st_params stp = st_params st2 /\
    st_params stp <> st_params st1.
Proof.
  destruct (training_cell 1 learning_rate example_params far_ratings
              example_songs) as [st1|e] eqn:H1;
    [| vm_compute in H1; discriminate].
  destruct (training_cell 2 learning_rate example_params far_ratings
              example_songs) as [st2|e] eqn:H2;
    [| vm_compute in H2; discriminate].
  destruct (personalization_cell 1 learning_rate new_ratings example_params
              far_ratings example_songs) as [stp|e] eqn:Hp;
    [| vm_compute in Hp; discriminate].
  exists st1, st2, stp. do 3 (split; [reflexivity|]).
  vm_compute in H1, H2, Hp.
  injection H1 as <-. injection H2 as <-. injection Hp as <-.
  do 4 (split; [reflexivity|]). split; [qc_eq|].
  intros Heq.
  apply (f_equal (fun p => map (map this) (cells p))) in Heq.
  vm_compute in Heq. discriminate Heq.
Qed.

(** * Further properties of the notebook's code *)

(** ** How many rounds are reported *)

Lemma reported_rounds_succ (n : nat) :
  reported_rounds (S n) = reported_rounds n + (if reported n then 1 else 0).
Proof.
  unfold reported_rounds, range. rewrite seq_S, filter_app, length_app.
  cbn [filter Nat.add]. now destruct (reported n).
Qed.

Lemma reported_rounds_count (n : nat) : reported_rounds n = (n + 49) / 50.
Proof.
  induction n as [|n IH]; [reflexivity|].
  rewrite reported_rounds_succ, IH. unfold reported.
  pose proof (Nat.div_mod_eq n 50) as Hn.
  pose proof (Nat.mod_upper_bound n 50 ltac:(lia)) as Hb.
  destruct (Nat.eqb_spec (n mod 50) 0) as [Hz | Hz].
  - rewrite Hz, Nat.add_0_r in Hn.
    replace (S n + 49) with (0 + (n / 50 + 1) * 50) by lia.
    replace (n + 49) with (49 + (n / 50) * 50) at 1 by lia.
    rewrite !Nat.div_add by lia. reflexivity.
  - replace (S n + 49) with ((n mod 50 + 50) + (n / 50) * 50) by lia.
    replace (n + 49) with ((n mod 50 + 49) + (n / 50) * 50) at 1 by lia.
    rewrite !Nat.div_add by lia.
    assert (H1 : (n mod 50 + 49) / 50 = 1).
    { symmetry. apply Nat.div_unique with (r := n mod 50 - 1); lia. }
    assert (H2 : (n mod 50 + 50) / 50 = 1).
    { symmetry. apply Nat.div_unique with (r := n mod 50); lia. }
    rewrite H1, H2. lia.
Qed.

(** ** The loops as plain gradient descent *)

Section Descent.

Context {T : Type} `{Scalar T}.

Variables (lr : T) (target song_data : ndarray T) (i a f : nat).
Hypothesis Htarget : has_shape target i a.
Hypothesis Hsongs : has_shape song_data i f.

Lemma descent_step_shaped (p : ndarray T) :
  has_shape p a f ->
  exists p', descent_step lr target song_data p = Ok p' /\ has_shape p' a f.
Proof.
  intros Hp.
  destruct (gradient_step_shaped lr (init_state p) Hp Htarget Hsongs)
    as (l & g & p' & _ & Hg & _ & Hsub & Hp' & _).
  exists p'. split; [|exact Hp'].
  unfold descent_step. cbn [init_state st_params] in Hg, Hsub.
  rewrite Hg. cbn [bind]. exact Hsub.
Qed.

Lemma gradient_step_descent (st : run_state) :
  has_shape (st_params st) a f ->
  exists l g p,
    descent_step lr target song_data (st_params st) = Ok p /\
    has_shape p a f /\
    gradient_step lr target song_data st =
    Ok (l, {| st_params := p; stdout := stdout st;
              updates := updates st ++ [(l, g)]; rounds := rounds st |}).
Proof.
  intros Hp.
  destruct (gradient_step_shaped lr st Hp Htarget Hsongs)
    as (l & g & p & _ & Hg & _ & Hsub & Hp' & Hstep).
  exists l, g, p. split; [|split; assumption].
  unfold descent_step. rewrite Hg. cbn [bind]. exact Hsub.
Qed.

(** The personalization loop on the rounds [k, ..., k+m-1], as a number of
    plain descent steps. *)
Lemma personalization_loop_descent (m k : nat) (st : run_state) :
  has_shape (st_params st) a f ->
  exists st',
    for_loop (personalization_body lr target song_data) (seq k m) st = Ok st' /\
    has_shape (st_params st') a f /\
    iterate (m + length (filter reported (seq k m)))
            (descent_step lr target song_data) (st_params st)
      = Ok (st_params st') /\
    length (stdout st') =
      length (stdout st) + length (filter reported (seq k m)).
Proof.
  revert k st; induction m as [|m IH]; intros k st Hp.
  - simpl. exists st. repeat split; try lia; apply Hp.
  - cbn [seq for_loop filter]. unfold personalization_body at 1.
    destruct (gradient_step_descent st Hp)
      as (l & g & p & Hd & Hps & Hstep).
    rewrite Hstep. cbn [bind].
    destruct (reported k).
    + match type of Hstep with _ = Ok (_, ?s) => set (st1 := s) in * end.
      destruct (gradient_step_descent st1 Hps)
        as (l2 & g2 & p2 & Hd2 & Hps2 & Hstep2).
      rewrite Hstep2. cbn [bind].
      match goal with |- context [for_loop _ _ ?s] => set (st2 := s) end.
      destruct (IH (S k) st2 Hps2) as (st' & Hrun & Hshape & Hit & Hout).
      exists st'. subst st2 st1.
      cbn [st_params stdout end_round print] in *.
      split; [exact Hrun|]. split; [exact Hshape|]. split.
      * cbn [length]. rewrite Nat.add_succ_r. cbn [Nat.add iterate].
        rewrite Hd. cbn [bind]. rewrite Hd2. cbn [bind]. exact Hit.
      * rewrite Hout, length_app. cbn [length]. lia.
    + cbn [bind].
      match goal with |- context [for_loop _ _ ?s] => set (st2 := s) end.
      destruct (IH (S k) st2 Hps) as (st' & Hrun & Hshape & Hit & Hout).
      exists st'. subst st2.
      cbn [st_params stdout end_round] in *.
      split; [exact Hrun|]. split; [exact Hshape|]. split.
      * cbn [Nat.add iterate]. rewrite Hd. cbn [bind]. exact Hit.
      * exact Hout.
Qed.

End Descent.

(** X1.  The printing of the training cell is silent: on arrays of agreeing
    shapes the cell returns the parameters that [n] successive updates
    [params - grad(loss)(params) * learning_rate] produce, the parameters
    keep their shape, and the cell prints one line for every 50th round and
    one for the final loss. *)
Theorem training_is_plain_descent {T : Type} `{Scalar T} (n : nat) (lr : T)
    (params ratings song_features : ndarray T) (i a f : nat) :
  has_shape params a f -> has_shape ratings i a ->
  has_shape song_features i f ->
  exists st,
    training_cell n lr params ratings song_features = Ok st /\
    iterate n (descent_step lr ratings song_features) params
      = Ok (st_params st) /\
    has_shape (st_params st) a f /\
    length (stdout st) = (n + 49) / 50 + 1.
Proof.
  intros Hp Ht Hs. unfold training_cell, range.
  destruct (training_loop_shaped lr Ht Hs n (k := 0) (init_state params))
    as (st & Hrun & Hshape & _ & _ & Hout & Hit & _);
    [exact Hp | reflexivity |].
  rewrite Hrun. cbn [bind]. rewrite (loss_shaped Hshape Ht Hs). cbn [bind].
  eexists. split; [reflexivity|].
  unfold print; cbn [stdout st_params].
  split; [exact Hit|]. split; [exact Hshape|].
  rewrite Hout, !length_app, length_map. cbn [init_state stdout length].
  rewrite <- reported_rounds_count. unfold reported_rounds, range. lia.
Qed.

Lemma training_is_plain_descent_witness :
  exists st,
    training_cell numrounds learning_rate example_params far_ratings
      example_songs = Ok st /\
    iterate numrounds (descent_step learning_rate far_ratings example_songs)
      example_params = Ok (st_params st) /\
    has_shape (st_params st) 2 2 /\
    length (stdout st) = (numrounds + 49) / 50 + 1.
Proof.
  apply (@training_is_plain_descent Qc _ numrounds learning_rate
           example_params far_ratings example_songs 3 2 2); shape_tac.
Defined.

(** X2.  The personalization cell is not [n] updates: every round whose loss
    is printed updates the parameters a second time, so on arrays of agreeing
    shapes the cell returns the parameters that [n + ceil(n/50)] successive
    updates produce, having counted [n] rounds; it prints one line for each
    of these rounds and one for the final loss. *)
Theorem personalization_is_longer_descent {T : Type} `{Scalar T}
    (n r : nat) (lr : T)
    (new_params new_ratings song_features : ndarray T) (i f m : nat) :
  has_shape song_features i f ->
  has_shape new_params m f -> has_shape new_ratings r m -> r <= i ->
  exists st,
    personalization_cell n lr r new_params new_ratings song_features = Ok st /\
    iterate (n + (n + 49) / 50)
            (descent_step lr new_ratings (slice_rows r song_features))
            new_params = Ok (st_params st) /\
    rounds st = n /\
    has_shape (st_params st) m f /\
    length (stdout st) = (n + 49) / 50 + 1.
Proof.
  intros Hs Hnp Hnr Hr. unfold personalization_cell, range.
  pose proof (slice_rows_has_shape Hs Hr) as Hslice.
  destruct (personalization_loop_shaped lr Hnr Hslice n 0
              (init_state new_params) Hnp)
    as (st & Hrun & _ & Hrounds & _).
  destruct (personalization_loop_descent lr Hnr Hslice n 0
              (init_state new_params) Hnp)
    as (st' & Hrun' & Hshape & Hit & Hout).
  rewrite Hrun in Hrun'. injection Hrun' as <-.
  rewrite Hrun. cbn [bind]. rewrite (loss_shaped Hshape Hnr Hslice).
  cbn [bind]. eexists. split; [reflexivity|].
  unfold print; cbn [stdout st_params rounds].
  fold (range n) in Hit, Hout. fold (reported_rounds n) in Hit, Hout.
  rewrite reported_rounds_count in Hit, Hout.
  split; [exact Hit|]. split; [exact Hrounds|]. split; [exact Hshape|].
  rewrite length_app, Hout. cbn [init_state stdout length]. lia.
Qed.

Lemma personalization_is_longer_descent_witness :
  exists st,
    personalization_cell numrounds learning_rate new_ratings
      example_params far_ratings example_songs = Ok st /\
    iterate (numrounds + (numrounds + 49) / 50)
            (descent_step learning_rate far_ratings
               (slice_rows new_ratings example_songs))
            example_params = Ok (st_params st) /\
    rounds st = numrounds /\
    has_shape (st_params st) 2 2 /\
    length (stdout st) = (numrounds + 49) / 50 + 1.
Proof.
  apply (@personalization_is_longer_descent Qc _ numrounds new_ratings
           learning_rate example_params far_ratings example_songs 3 2 2);
    try (unfold new_ratings; lia); shape_tac.
Defined.

(** ** The gradient as a subgradient *)

Section Subgradient.

Local Open Scope Qc_scope.

Lemma big_sum_le (n : nat) (F G : nat -> Qc) :
  (forall k, (k < n)%nat -> F k <= G k) ->
  Spec.big_sum n F <= Spec.big_sum n G.
Proof.
  induction n as [|n IH]; intros Hle; simpl.
  - apply Qcle_refl.
  - apply Qcplus_le_compat; auto.
Qed.

Lemma Qcmult_le_compat_l (x y z : Qc) : x <= y -> 0 <= z -> z * x <= z * y.
Proof.
  intros Hxy Hz. rewrite (Qcmult_comm z x), (Qcmult_comm z y).
  now apply Qcmult_le_compat_r.
Qed.

Lemma Qcminus_le_compat_r (x y z : Qc) : x <= y -> x - z <= y - z.
Proof.
  intros Hxy. unfold Qcminus.
  apply Qcplus_le_compat; [exact Hxy | apply Qcle_refl].
Qed.

Lemma Qcabs_opp_le (y : Qc) : - y <= Qcabs y.
Proof. rewrite <- Qcabs_opp. apply Qcle_Qcabs. Qed.

(** The factor of a residual times a number is at most the absolute value
    of the number, and has the same absolute value. *)
Lemma closed_s_mult_le (params target song_features : ndarray Qc)
    (x u : nat) (y : Qc) :
  Closed.s params target song_features x u * y <= Qcabs y.
Proof.
  unfold Closed.s.
  destruct (slope_cases (Spec.entry target x u
                         - Spec.predicted song_features params x u))
    as [-> | ->].
  - replace (- (1) * y) with (- y) by ring. apply Qcabs_opp_le.
  - replace (- - (1) * y) with y by ring. apply Qcle_Qcabs.
Qed.

Lemma Qcabs_closed_s_mult (params target song_features : ndarray Qc)
    (x u : nat) (y : Qc) :
  Qcabs (Closed.s params target song_features x u * y) = Qcabs y.
Proof.
  unfold Closed.s.
  destruct (slope_cases (Spec.entry target x u
                         - Spec.predicted song_features params x u))
    as [-> | ->].
  - replace (- (1) * y) with (- y) by ring. apply Qcabs_opp.
  - now replace (- - (1) * y) with y by ring.
Qed.

Lemma Qcabs_big_sum (n : nat) (F : nat -> Qc) :
  Qcabs (Spec.big_sum n F) <= Spec.big_sum n (fun k => Qcabs (F k)).
Proof.
  induction n as [|n IH]; simpl.
  - rewrite Qcabs_pos; apply Qcle_refl.
  - eapply Qcle_trans; [apply Qcabs_triangle|].
    apply Qcplus_le_compat; [exact IH | apply Qcle_refl].
Qed.

Lemma Qcinv_of_nat_nonneg (n : nat) : 0 <= / Qc_of_nat n.
Proof.
  destruct n as [|n]; [discriminate|].
  apply Qclt_le_weak, Qcinv_pos, Qc_of_nat_pos. lia.
Qed.

(** The inner product of the gradient with a displacement, song by song. *)
Lemma inner_gradient (params delta target song_features : ndarray Qc)
    (i a f : nat) :
  has_shape params a f -> has_shape delta a f -> has_shape target i a ->
  has_shape song_features i f ->
  Spec.inner (Closed.gradient params target song_features) delta =
  / Qc_of_nat (i * a)
  * Spec.big_sum i (fun x => Spec.big_sum a (fun u =>
      Closed.s params target song_features x u
      * Spec.dot (row x song_features) (row u delta))).
Proof.
  intros Hp Hd Ht Hs.
  pose proof Hp as [_ [Hpn Hpc]].
  unfold Spec.inner. cbn [Closed.gradient nrows ncols]. rewrite Hpn, Hpc.
  symmetry.
  rewrite big_sum_ext with
    (G := fun x => Spec.big_sum a (fun u =>
            Closed.s params target song_features x u
            * Spec.big_sum f (fun k =>
                Spec.entry song_features x k * Spec.entry delta u k))).
  2:{ intros x Hx. apply big_sum_ext. intros u Hu.
      rewrite (@dot_big_sum (row x song_features) (row u delta) f);
        [reflexivity | apply (has_shape_row Hs Hx)
        | apply (has_shape_row Hd Hu)]. }
  rewrite big_sum_swap, <- big_sum_scale.
  apply big_sum_ext. intros u Hu.
  transitivity
    (Spec.big_sum f (fun k =>
       / Qc_of_nat (i * a)
       * Spec.big_sum i (fun x =>
           Closed.s params target song_features x u
           * Spec.entry song_features x k * Spec.entry delta u k))).
  - rewrite big_sum_scale. f_equal.
    rewrite big_sum_ext with
      (G := fun x => Spec.big_sum f (fun k =>
              Closed.s params target song_features x u
              * Spec.entry song_features x k * Spec.entry delta u k)).
    + apply big_sum_swap.
    + intros x Hx. rewrite <- big_sum_scale. apply big_sum_ext.
      intros k Hk. ring.
  - apply big_sum_ext. intros k Hk.
    rewrite (@gradient_entry params target song_features i a f u k)
      by assumption.
    rewrite big_sum_scale_r. unfold Qcdiv. ring.
Qed.

Lemma grad_loss_subgradient_aux
    (params delta target song_features : ndarray Qc) (i a f : nat) :
  has_shape params a f -> has_shape delta a f -> has_shape target i a ->
  has_shape song_features i f ->
  exists l l' g,
    loss params target song_features = Ok l /\
    loss (Spec.moved params delta) target song_features = Ok l' /\
    grad_loss params target song_features = Ok g /\
    l + Spec.inner g delta <= l'.
Proof.
  intros Hp Hd Ht Hs.
  pose proof (moved_has_shape Hp Hd) as Hm.
  do 3 eexists.
  split; [apply (loss_as_residuals Hp Ht Hs)|].
  split; [apply (loss_as_residuals Hm Ht Hs)|].
  split; [apply (grad_loss_is_closed_gradient Hp Ht Hs)|].
  rewrite (inner_gradient Hp Hd Ht Hs).
  match goal with |- ?l + ?g <= ?l' =>
    apply Qcle_trans with (l + (l' - l));
      [| replace (l + (l' - l)) with l' by ring; apply Qcle_refl]
  end.
  apply Qcplus_le_compat; [apply Qcle_refl|].
  rewrite Qcdiv_minus, <- big_sum_minus.
  apply Qcmult_le_compat_l; [|apply Qcinv_of_nat_nonneg].
  apply big_sum_le. intros x Hx. rewrite <- big_sum_minus.
  apply big_sum_le. intros u Hu.
  rewrite (predicted_moved song_features x Hp Hd Hu).
  rewrite (Qcabs_residual params target song_features x u).
  set (r := Spec.predicted song_features params x u - Spec.entry target x u).
  set (d := Spec.dot (row x song_features) (row u delta)).
  replace (Spec.predicted song_features params x u + d
           - Spec.entry target x u) with (r + d) by (unfold r; ring).
  set (c := Closed.s params target song_features x u).
  replace (c * d) with (c * (r + d) - c * r) by ring.
  apply Qcminus_le_compat_r, closed_s_mult_le.
Qed.

End Subgradient.

(** X3.  The array that [grad(loss)] returns is a subgradient of [loss] at
    every parameter matrix, also where a residual is zero and the rule of
    [abs] gives it the factor -1: moving the parameters by any [delta] raises
    the loss at least by the inner product of the gradient and [delta]. *)
Theorem grad_loss_is_subgradient
    (params delta target song_features : ndarray Qc) (i a f : nat) :
  has_shape params a f -> has_shape delta a f -> has_shape target i a ->
  has_shape song_features i f ->
  0 < i -> 0 < a ->
  exists l l' g,
    loss params target song_features = Ok l /\
    loss (Spec.moved params delta) target song_features = Ok l' /\
    grad_loss params target song_features = Ok g /\
    (l + Spec.inner g delta <= l')%Qc.
Proof.
  intros Hp Hd Ht Hs _ _. exact (grad_loss_subgradient_aux Hp Hd Ht Hs).
Qed.

Lemma grad_loss_is_subgradient_witness :
  exists l l' g,
    loss example_params example_ratings example_songs = Ok l /\
    loss (Spec.moved example_params other_params) example_ratings
         example_songs = Ok l' /\
    grad_loss example_params example_ratings example_songs = Ok g /\
    (l + Spec.inner g other_params <= l')%Qc.
Proof.
  apply (@grad_loss_is_subgradient example_params other_params
           example_ratings example_songs 3 2 2); try lia; shape_tac.
Defined.

(** ** Where the gradient vanishes *)

Section Stationary.

Local Open Scope Qc_scope.







End Stationary.



(** ** The size of an update *)

Section Bound.

Local Open Scope Qc_scope.

Lemma gradient_entry_bound (params target song_features : ndarray Qc)
    (i a f u k : nat) :
  has_shape params a f -> has_shape target i a ->
  has_shape song_features i f ->
  (u < a)%nat -> (k < f)%nat ->
  Qcabs (Spec.entry (Closed.gradient params target song_features) u k)
  <= feature_mass song_features k / Qc_of_nat (i * a).
Proof.
  intros Hp Ht Hs Hu Hk.
  rewrite (@gradient_entry params target song_features i a f u k)
    by assumption.
  destruct Hs as [_ [Hsn _]]. unfold feature_mass. rewrite Hsn.
  unfold Qcdiv. rewrite Qcmult_1_l, Qcabs_Qcmult.
  rewrite (Qcabs_pos (/ Qc_of_nat (i * a))) by apply Qcinv_of_nat_nonneg.
  rewrite (Qcmult_comm (Spec.big_sum i _)).
  apply Qcmult_le_compat_l; [|apply Qcinv_of_nat_nonneg].
  eapply Qcle_trans; [apply Qcabs_big_sum|].
  apply big_sum_le. intros x Hx. rewrite Qcabs_closed_s_mult.
  apply Qcle_refl.
Qed.

Lemma descent_step_entry (lr : Qc) (params target song_features : ndarray Qc)
    (i a f u k : nat) :
  has_shape params a f -> has_shape target i a ->
  has_shape song_features i f ->
  (u < a)%nat -> (k < f)%nat ->
  exists p',
    descent_step lr target song_features params = Ok p' /\
    Spec.entry p' u k =
    Spec.entry params u k
    - Spec.entry (Closed.gradient params target song_features) u k * lr.
Proof.
  intros Hp Ht Hs Hu Hk. unfold descent_step.
  pose proof (grad_loss_is_closed_gradient Hp Ht Hs) as Hg.
  pose proof (grad_loss_has_shape Hp Ht Hs Hg) as Hgs.
  rewrite Hg. cbn [bind].
  rewrite (jnp_sub_shaped Hp (jnp_scale_has_shape lr Hgs)).
  eexists. split; [reflexivity|].
  unfold Spec.entry at 1. cbn [cells jnp_scale].
  rewrite nth_map2_rows, nth_map_rows.
  fold (row u params) (row u (Closed.gradient params target song_features)).
  pose proof (has_shape_row Hp Hu) as Hlp.
  pose proof (has_shape_row Hgs Hu) as Hlg.
  rewrite nth_map2 with (d1 := 0) (d2 := 0) by (rewrite ?length_map; lia).
  rewrite nth_map_in with (d' := 0) by lia.
  reflexivity.
Qed.

End Bound.

(** X6.  The gradient is bounded whatever the residuals are, zero or not:
    the absolute value of its entry for person [u] and feature [k] is at most the sum of
    the absolute values of feature [k] over the songs, divided by the number
    of ratings.  Hence one update moves a preference by at most the learning
    rate times that bound. *)
Theorem update_is_bounded (lr : Qc)
    (params target song_features : ndarray Qc) (i a f u k : nat) :
  has_shape params a f -> has_shape target i a ->
  has_shape song_features i f ->
  0 < i -> 0 < a -> u < a -> k < f ->
  exists g p',
    grad_loss params target song_features = Ok g /\
    descent_step lr target song_features params = Ok p' /\
    (Qcabs (Spec.entry g u k)
     <= feature_mass song_features k / Qc_of_nat (i * a))%Qc /\
    (Qcabs (Spec.entry p' u k - Spec.entry params u k)
     <= Qcabs lr * (feature_mass song_features k / Qc_of_nat (i * a)))%Qc.
Proof.
  intros Hp Ht Hs _ _ Hu Hk.
  destruct (descent_step_entry lr Hp Ht Hs Hu Hk) as (p' & Hstep & Hentry).
  pose proof (gradient_entry_bound Hp Ht Hs Hu Hk) as Hb.
  exists (Closed.gradient params target song_features), p'.
  split; [apply (grad_loss_is_closed_gradient Hp Ht Hs)|].
  split; [exact Hstep|]. split; [exact Hb|].
  rewrite Hentry.
  set (g := Spec.entry (Closed.gradient params target song_features) u k) in *.
  replace (Spec.entry params u k - g * lr - Spec.entry params u k)%Qc
    with (- (lr * g))%Qc by ring.
  rewrite Qcabs_opp, Qcabs_Qcmult.
  apply Qcmult_le_compat_l; [exact Hb | apply Qcabs_nonneg].
Qed.

Lemma update_is_bounded_witness :
  exists g p',
    grad_loss example_params example_ratings example_songs = Ok g /\
    descent_step learning_rate example_ratings example_songs example_params
      = Ok p' /\
    (Qcabs (Spec.entry g 1 0)
     <= feature_mass example_songs 0 / Qc_of_nat (3 * 2))%Qc /\
    (Qcabs (Spec.entry p' 1 0 - Spec.entry example_params 1 0)
     <= Qcabs learning_rate
        * (feature_mass example_songs 0 / Qc_of_nat (3 * 2)))%Qc.
Proof.
  apply (@update_is_bounded learning_rate example_params example_ratings
           example_songs 3 2 2 1 0); try lia; shape_tac.
Defined.

(** ** The loss between its kinks *)

(** X7.  The loss is linear where no prediction changes its side of its
    rating: if moving the parameters by [delta] leaves every prediction
    either above its rating or at or below it, as it was, so that the rule
    of [abs] gives every residual the factor it had, the loss changes
    exactly by the inner product of [grad(loss)] and [delta]. *)
Theorem loss_is_linear_where_signs_hold
    (params delta target song_features : ndarray Qc) (i a f : nat) :
  has_shape params a f -> has_shape delta a f -> has_shape target i a ->
  has_shape song_features i f ->
  0 < i -> 0 < a ->
  (forall x u, x < i -> u < a ->
     Closed.s (Spec.moved params delta) target song_features x u =
     Closed.s params target song_features x u) ->
  exists l l' g,
    loss params target song_features = Ok l /\
    loss (Spec.moved params delta) target song_features = Ok l' /\
    grad_loss params target song_features = Ok g /\
    (l' - l)%Qc = Spec.inner g delta.
Proof.
  intros Hp Hd Ht Hs Hi Ha Hsign.
  exact (grad_loss_linearises_loss Hp Hd Ht Hs Hi Ha Hsign).
Qed.

Lemma loss_is_linear_where_signs_hold_witness :
  exists l l' g,
    loss example_params example_ratings example_songs = Ok l /\
    loss (Spec.moved example_params
            (mk_ndarray 2 2 [[Qz 0; Qz (-1)]; [Qz 0; Qz (-1)]]))
         example_ratings example_songs = Ok l' /\
    grad_loss example_params example_ratings example_songs = Ok g /\
    (l' - l)%Qc
    = Spec.inner g (mk_ndarray 2 2 [[Qz 0; Qz (-1)]; [Qz 0; Qz (-1)]]).
Proof.
  apply (@loss_is_linear_where_signs_hold example_params
           (mk_ndarray 2 2 [[Qz 0; Qz (-1)]; [Qz 0; Qz (-1)]])
           example_ratings example_songs 3 2 2);
    try lia; try (shape_tac; fail).
  intros x u Hx Hu.
  destruct x as [|[|[|x]]]; try lia;
    destruct u as [|[|u]]; try lia; vm_compute; reflexivity.
Defined.

(** ** The loss as a distance *)

Section Metric.

Local Open Scope Qc_scope.

Lemma mean_absolute_error_sym (x y : ndarray Qc) (r c : nat) :
  has_shape x r c -> has_shape y r c ->
  Spec.mean_absolute_error x y = Spec.mean_absolute_error y x.
Proof.
  intros [_ [Hxn Hxc]] [_ [Hyn Hyc]]. unfold Spec.mean_absolute_error.
  rewrite Hxn, Hxc, Hyn, Hyc. f_equal.
  apply big_sum_ext. intros i _. apply big_sum_ext. intros u _.
  apply Qcabs_Qcminus.
Qed.

Lemma mean_absolute_error_triangle (x y z : ndarray Qc) (r c : nat) :
  has_shape x r c -> has_shape y r c -> has_shape z r c ->
  Spec.mean_absolute_error x z
  <= Spec.mean_absolute_error x y + Spec.mean_absolute_error y z.
Proof.
  intros [_ [Hxn Hxc]] [_ [Hyn Hyc]] [_ [Hzn Hzc]].
  unfold Spec.mean_absolute_error, Qcdiv. rewrite Hyn, Hyc, Hzn, Hzc.
  rewrite <- Qcmult_plus_distr_l, <- big_sum_plus.
  apply Qcmult_le_compat_r; [|apply Qcinv_of_nat_nonneg].
  apply big_sum_le. intros i _. rewrite <- big_sum_plus.
  apply big_sum_le. intros u _.
  replace (Spec.entry x i u - Spec.entry z i u)
    with ((Spec.entry x i u - Spec.entry y i u)
          + (Spec.entry y i u - Spec.entry z i u)) by ring.
  apply Qcabs_triangle.
Qed.

End Metric.

(** X8.  The mean absolute error is a distance between arrays of one shape:
    it does not depend on the order of its two arguments, and it satisfies
    the triangle inequality. *)
Theorem loss_is_a_distance (x y z : ndarray Qc) (r c : nat) :
  has_shape x r c -> has_shape y r c -> has_shape z r c ->
  0 < r -> 0 < c ->
  exists dxy dyz dxz,
    mean_abs_error x y = Ok dxy /\
    mean_abs_error y x = Ok dxy /\
    mean_abs_error y z = Ok dyz /\
    mean_abs_error x z = Ok dxz /\
    (dxz <= dxy + dyz)%Qc.
Proof.
  intros Hx Hy Hz _ _.
  exists (Spec.mean_absolute_error y x), (Spec.mean_absolute_error z y),
         (Spec.mean_absolute_error z x).
  split; [apply (mean_abs_error_shaped Hx Hy)|].
  split; [rewrite (mean_abs_error_shaped Hy Hx);
          f_equal; apply (mean_absolute_error_sym Hx Hy)|].
  split; [apply (mean_abs_error_shaped Hy Hz)|].
  split; [apply (mean_abs_error_shaped Hx Hz)|].
  rewrite (Qcplus_comm (Spec.mean_absolute_error y x)).
  apply (mean_absolute_error_triangle Hz Hy Hx).
Qed.

Lemma loss_is_a_distance_witness :
  exists dxy dyz dxz,
    mean_abs_error example_ratings other_ratings = Ok dxy /\
    mean_abs_error other_ratings example_ratings = Ok dxy /\
    mean_abs_error other_ratings far_ratings = Ok dyz /\
    mean_abs_error example_ratings far_ratings = Ok dxz /\
    (dxz <= dxy + dyz)%Qc.
Proof.
  apply (@loss_is_a_distance example_ratings other_ratings far_ratings 3 2);
    try lia; shape_tac.
Defined.

(** ** The predictor is linear in the preferences *)

Section Linear.

Local Open Scope Qc_scope.

Lemma dot_scale_r (v p : list Qc) (c : Qc) :
  Spec.dot v (map (fun x => x * c) p) = Spec.dot v p * c.
Proof.
  revert p; induction v as [|x v IH]; intros [|y p]; simpl; try ring.
  rewrite IH. ring.
Qed.

Lemma predict_all_entry (song_features params pred : ndarray Qc)
    (i a f x u : nat) :
  has_shape song_features i f -> has_shape params a f ->
  predict_all song_features params = Ok pred ->
  (x < i)%nat -> (u < a)%nat ->
  Spec.entry pred x u = Spec.predicted song_features params x u.
Proof.
  intros Hs Hp Hpred Hx Hu. rewrite (predict_all_shaped Hs Hp) in Hpred.
  injection Hpred as <-. unfold Spec.entry, Spec.predicted, row. cbn [cells].
  destruct (has_shape_cells Hs) as [Hsl _].
  destruct (has_shape_cells Hp) as [Hpl _].
  apply entry_ratings; lia.
Qed.

Lemma moved_entry (p d : ndarray Qc) (r c x u : nat) :
  has_shape p r c -> has_shape d r c -> (x < r)%nat -> (u < c)%nat ->
  Spec.entry (Spec.moved p d) x u = Spec.entry p x u + Spec.entry d x u.
Proof.
  intros Hp Hd Hx Hu. unfold Spec.entry, Spec.moved. cbn [cells].
  rewrite nth_map2_rows. fold (row x p) (row x d).
  apply nth_map2; [rewrite (has_shape_row Hp Hx) | rewrite (has_shape_row Hd Hx)];
    exact Hu.
Qed.

Lemma scale_entry (p : ndarray Qc) (c : Qc) (r n x u : nat) :
  has_shape p r n -> (x < r)%nat -> (u < n)%nat ->
  Spec.entry (jnp_scale p c) x u = Spec.entry p x u * c.
Proof.
  intros Hp Hx Hu. unfold Spec.entry, jnp_scale. cbn [cells].
  rewrite nth_map_rows. fold (row x p). qc_ops.
  rewrite nth_map_in with (d' := 0) by (rewrite (has_shape_row Hp Hx); exact Hu).
  reflexivity.
Qed.

Lemma predicted_scaled (song_features params : ndarray Qc) (c : Qc)
    (x u : nat) :
  Spec.predicted song_features (jnp_scale params c) x u =
  Spec.predicted song_features params x u * c.
Proof.
  unfold Spec.predicted, row, jnp_scale. cbn [cells].
  rewrite nth_map_rows. qc_ops. apply dot_scale_r.
Qed.

End Linear.

(** X9.  The batched prediction is linear in the preferences: the ratings
    predicted from the sum of two preference matrices are the sums of the
    ratings predicted from each, and scaling the preferences scales the
    predicted ratings. *)
Theorem predict_all_is_linear (song_features params delta : ndarray Qc)
    (c : Qc) (i a f : nat) :
  has_shape song_features i f -> has_shape params a f ->
  has_shape delta a f ->
  exists pp pd,
    predict_all song_features params = Ok pp /\
    predict_all song_features delta = Ok pd /\
    predict_all song_features (Spec.moved params delta)
      = Ok (Spec.moved pp pd) /\
    predict_all song_features (jnp_scale params c) = Ok (jnp_scale pp c).
Proof.
  intros Hs Hp Hd.
  pose proof (predict_all_shaped Hs Hp) as Hpp.
  pose proof (predict_all_shaped Hs Hd) as Hpd.
  pose proof (predict_all_has_shape Hs Hp Hpp) as Hpps.
  pose proof (predict_all_has_shape Hs Hd Hpd) as Hpds.
  pose proof (moved_has_shape Hp Hd) as Hm.
  pose proof (jnp_scale_has_shape c Hp) as Hsc.
  pose proof (predict_all_shaped Hs Hm) as Hpm.
  pose proof (predict_all_shaped Hs Hsc) as Hpsc.
  eexists _, _. split; [exact Hpp|]. split; [exact Hpd|]. split.
  - rewrite Hpm. f_equal.
    apply (entries_eq (predict_all_has_shape Hs Hm Hpm)
                      (moved_has_shape Hpps Hpds)).
    intros x u Hx Hu.
    rewrite (predict_all_entry Hs Hm Hpm Hx Hu).
    rewrite (moved_entry Hpps Hpds Hx Hu).
    rewrite (predict_all_entry Hs Hp Hpp Hx Hu).
    rewrite (predict_all_entry Hs Hd Hpd Hx Hu).
    apply (predicted_moved song_features x Hp Hd Hu).
  - rewrite Hpsc. f_equal.
    apply (entries_eq (predict_all_has_shape Hs Hsc Hpsc)
                      (jnp_scale_has_shape c Hpps)).
    intros x u Hx Hu.
    rewrite (predict_all_entry Hs Hsc Hpsc Hx Hu).
    rewrite (scale_entry c Hpps Hx Hu).
    rewrite (predict_all_entry Hs Hp Hpp Hx Hu).
    apply predicted_scaled.
Qed.

Lemma predict_all_is_linear_witness :
  exists pp pd,
    predict_all example_songs example_params = Ok pp /\
    predict_all example_songs other_params = Ok pd /\
    predict_all example_songs (Spec.moved example_params other_params)
      = Ok (Spec.moved pp pd) /\
    predict_all example_songs (jnp_scale example_params learning_rate)
      = Ok (jnp_scale pp learning_rate).
Proof.
  apply (@predict_all_is_linear example_songs example_params other_params
           learning_rate 3 2 2); shape_tac.
Defined.

(** ** Recommendations and the songs that were rated *)

Lemma slice_rows_wf {T} `{Scalar T} (n : nat) (a : ndarray T) :
  wf_array a -> wf_array (slice_rows n a).
Proof.
  intros [Hl Hr]. split; cbn [slice_rows cells nrows ncols].
  - rewrite length_firstn, Hl. reflexivity.
  - rewrite Forall_forall in *. intros x Hx. apply Hr.
    rewrite <- (firstn_skipn n (cells a)). apply in_or_app. now left.
Qed.

(** X10.  The recommendations restricted to the first songs are the
    predictions for these songs alone: predicting on [song_features[0:r, :]]
    gives the first [r] rows of the prediction on all the songs, and raises
    when that one raises.  So the ratings recommended for the songs a new
    member rated are the predictions that the personalization loss compared
    with the member's ratings. *)
Theorem recommendations_extend_the_fitted_predictions {T : Type} `{Scalar T}
    (r : nat) (song_features new_member_params : ndarray T) :
  wf_array song_features -> wf_array new_member_params ->
  predict_all (slice_rows r song_features) new_member_params =
  (p <- recommend song_features new_member_params ;; Ok (slice_rows r p)).
Proof.
  intros Hs Hp. unfold recommend.
  fold (predict_all song_features new_member_params).
  rewrite (predict_all_wf (slice_rows_wf r Hs) Hp), (predict_all_wf Hs Hp).
  cbn [slice_rows ncols nrows cells].
  destruct (broadcast_shapes (ncols song_features) (ncols new_member_params))
    as [n|e]; cbn [bind]; [|reflexivity].
  unfold slice_rows. cbn [nrows ncols cells]. now rewrite firstn_map.
Qed.

Lemma recommendations_extend_the_fitted_predictions_witness :
  predict_all (slice_rows 2 example_songs) example_params =
  (p <- recommend example_songs example_params ;; Ok (slice_rows 2 p)).
Proof.
  apply (@recommendations_extend_the_fitted_predictions Qc _ 2
           example_songs example_params); shape_tac.
Defined.

(** ** At a perfect fit *)

Section PerfectFit.

Local Open Scope Qc_scope.



End PerfectFit.



(** ** NaN in binary32 *)

Section NaN.

Lemma f32_isnan_true (x : F32.t) : f32_isnan x = true <-> x = S754_nan.
Proof. destruct x; simpl; split; intros; congruence. Qed.

Lemma f32_add_nan_l (x : F32.t) : lax_add S754_nan x = S754_nan.
Proof. reflexivity. Qed.

Lemma f32_add_nan_r (x : F32.t) : lax_add x S754_nan = S754_nan.
Proof. destruct x; reflexivity. Qed.

Lemma f32_sub_nan_r (x : F32.t) : lax_sub x S754_nan = S754_nan.
Proof. destruct x; reflexivity. Qed.

Lemma f32_mul_nan_l (x : F32.t) : lax_mul S754_nan x = S754_nan.
Proof. reflexivity. Qed.

Lemma f32_mul_nan_r (x : F32.t) : lax_mul x S754_nan = S754_nan.
Proof. destruct x; reflexivity. Qed.

Lemma f32_div_nan_l (x : F32.t) : lax_div S754_nan x = S754_nan.
Proof. reflexivity. Qed.

Lemma f32_sub_nan_l (x : F32.t) : lax_sub S754_nan x = S754_nan.
Proof. reflexivity. Qed.

Lemma f32_neg_neg (x : F32.t) : lax_neg (lax_neg x) = x.
Proof. destruct x; cbn; now rewrite ?negb_involutive. Qed.

(** A NaN compares with nothing, so the rule of [abs] negates the cotangent
    there, and the cotangent that reaches the prediction is [1/N]. *)
Lemma f32_entry_cotangent_nan (n : nat) :
  entry_cotangent n S754_nan = lax_div lax_one (lax_of_nat n).
Proof.
  unfold entry_cotangent, abs_jvp.
  change (lax_ge S754_nan lax_zero) with false. cbv iota.
  apply f32_neg_neg.
Qed.

Lemma has_nan_In (l : list F32.t) : has_nan l = true <-> In S754_nan l.
Proof.
  unfold has_nan. rewrite existsb_exists. split.
  - intros [x [Hin Hx]]. apply f32_isnan_true in Hx. now subst.
  - intros Hin. exists S754_nan. now split.
Qed.

Lemma fold_add_from_nan (l : list F32.t) :
  fold_left lax_add l S754_nan = S754_nan.
Proof. induction l as [|x l IH]; simpl; [reflexivity | exact IH]. Qed.

Lemma jnp_sum_nan (l : list F32.t) : In S754_nan l -> jnp_sum l = S754_nan.
Proof.
  unfold jnp_sum. generalize (lax_zero : F32.t).
  induction l as [|x l IH]; intros acc Hin; [destruct Hin|].
  cbn [fold_left]. destruct Hin as [-> | Hin].
  - rewrite f32_add_nan_r. apply fold_add_from_nan.
  - now apply IH.
Qed.

Lemma In_map2_mul_nan (song pref : list F32.t) :
  length song = length pref -> In S754_nan pref ->
  In S754_nan (map2 lax_mul song pref).
Proof.
  revert pref; induction song as [|x song IH]; intros [|y pref] Hl Hin;
    cbn [length map2 In] in *; try discriminate; try contradiction.
  destruct Hin as [-> | Hin].
  - left. apply f32_mul_nan_r.
  - right. apply IH; [lia | exact Hin].
Qed.

(** The rating predicted from preferences with a NaN is NaN. *)
Lemma rating_nan (song pref : list F32.t) :
  length song = length pref -> In S754_nan pref ->
  jnp_sum (map2 lax_mul song pref) = S754_nan.
Proof. intros Hl Hin. now apply jnp_sum_nan, In_map2_mul_nan. Qed.

Lemma fold_vec_add_length (vs : list (list F32.t)) (acc : list F32.t)
    (f : nat) :
  length acc = f -> Forall (fun v => length v = f) vs ->
  length (fold_left vec_add vs acc) = f.
Proof.
  intros Hacc Hvs; revert acc Hacc.
  induction Hvs as [|v vs Hv _ IH]; intros acc Hacc; cbn [fold_left].
  - exact Hacc.
  - apply IH. unfold vec_add. rewrite map2_length. lia.
Qed.

Lemma agent_gradient_length (n : nat) (ss : list (list F32.t))
    (ts pref : list F32.t) :
  Forall (fun song => length song = length pref) ss ->
  length (agent_gradient n ss ts pref) = length pref.
Proof.
  intros Hss. unfold agent_gradient.
  apply fold_vec_add_length; [apply repeat_length|].
  rewrite Forall_forall in Hss.
  apply map2_Forall. intros song t Hsong _. rewrite length_map. auto.
Qed.

Lemma agent_step_length (n : nat) (lr : F32.t) (ss : list (list F32.t))
    (ts pref : list F32.t) :
  Forall (fun song => length song = length pref) ss ->
  length (agent_step n lr ss ts pref) = length pref.
Proof.
  intros Hss. unfold agent_step.
  rewrite map2_length, length_map, agent_gradient_length by exact Hss. lia.
Qed.

Lemma nth_nan_in_range (l : list F32.t) (k : nat) :
  nth k l lax_zero = S754_nan -> k < length l.
Proof.
  intros Hk. destruct (Nat.lt_ge_cases k (length l)) as [Hlt | Hge];
    [exact Hlt|].
  rewrite nth_overflow in Hk by exact Hge. discriminate Hk.
Qed.

(** One update leaves a NaN where it is. *)
Lemma agent_step_keeps_nan (n : nat) (lr : F32.t) (ss : list (list F32.t))
    (ts pref : list F32.t) (k : nat) :
  Forall (fun song => length song = length pref) ss ->
  nth k pref lax_zero = S754_nan ->
  nth k (agent_step n lr ss ts pref) lax_zero = S754_nan.
Proof.
  intros Hss Hk. pose proof (nth_nan_in_range pref k Hk) as Hlt.
  unfold agent_step.
  rewrite nth_map2 with (d1 := lax_zero) (d2 := lax_zero);
    [| exact Hlt | now rewrite length_map, agent_gradient_length].
  rewrite Hk. apply f32_sub_nan_l.
Qed.

Lemma agent_steps_keep_nan (m n : nat) (lr : F32.t) (ss : list (list F32.t))
    (ts pref : list F32.t) :
  Forall (fun song => length song = length pref) ss ->
  length (Nat.iter m (agent_step n lr ss ts) pref) = length pref /\
  forall k, nth k pref lax_zero = S754_nan ->
    nth k (Nat.iter m (agent_step n lr ss ts) pref) lax_zero = S754_nan.
Proof.
  intros Hss. induction m as [|m [IHl IHk]].
  - cbn [Nat.iter nat_rect]. split; [reflexivity | auto].
  - change (Nat.iter (S m) (agent_step n lr ss ts) pref)
      with (agent_step n lr ss ts (Nat.iter m (agent_step n lr ss ts) pref)).
    assert (Hss' : Forall (fun song => length song =
                     length (Nat.iter m (agent_step n lr ss ts) pref)) ss)
      by now rewrite IHl.
    split.
    + now rewrite agent_step_length.
    + intros k Hk. apply agent_step_keeps_nan; auto.
Qed.

(** The gradient of a person whose preferences contain a NaN is not NaN for
    that reason: every residual of this person is a NaN, the cotangent of
    each of the predictions is [1/N], and the gradient is the sum of the
    songs' features times [1/N], whatever the ratings are. *)
Lemma agent_gradient_nan (n : nat) (ss : list (list F32.t))
    (ts pref : list F32.t) :
  length ts = length ss ->
  Forall (fun song => length song = length pref) ss ->
  In S754_nan pref ->
  agent_gradient n ss ts pref =
  sum_rows (length pref)
    (map (map (fun s => lax_mul s (lax_div lax_one (lax_of_nat n)))) ss).
Proof.
  intros Hts Hss Hin. unfold agent_gradient, sum_rows. f_equal.
  revert ts Hts. induction Hss as [|song ss Hsong _ IH]; intros ts Hts.
  - reflexivity.
  - destruct ts as [|t ts]; [discriminate|]. cbn [map2 map].
    rewrite rating_nan by (auto using Hsong).
    rewrite f32_sub_nan_r, f32_entry_cotangent_nan.
    f_equal. apply IH. simpl in Hts. lia.
Qed.

(** The loss of parameters with a NaN is NaN. *)
Lemma loss_nan (params target song_features : ndarray F32.t)
    (i a f u : nat) :
  has_shape params a f -> has_shape target i a ->
  has_shape song_features i f ->
  0 < i -> u < a -> In S754_nan (row u params) ->
  loss params target song_features = Ok S754_nan.
Proof.
  intros Hp Ht Hs Hi Hu Hin. rewrite (loss_shaped Hp Ht Hs). f_equal.
  destruct (has_shape_cells Hp) as [Hpl Hpr].
  destruct (has_shape_cells Ht) as [Htl Htr].
  destruct (has_shape_cells Hs) as [Hsl Hsr].
  rewrite jnp_sum_nan; [apply f32_div_nan_l|].
  apply in_concat.
  set (L := map (map lax_abs)
              (map2 (map2 lax_sub) (cells target)
                    (ratings (cells song_features) (cells params)))).
  assert (HL : length L = i).
  { unfold L, ratings. rewrite length_map, map2_length, length_map. lia. }
  exists (nth 0 L []). split; [apply nth_In; lia|].
  unfold L, ratings. rewrite nth_map_rows, nth_map2_rows.
  rewrite nth_map_in with (d' := []) by lia.
  fold (row 0 target) (row 0 song_features).
  pose proof (has_shape_row Ht Hi) as Hlt.
  pose proof (has_shape_row Hs Hi) as Hls.
  pose proof (has_shape_row Hp Hu) as Hlp.
  set (R := fun pref => jnp_sum (map2 lax_mul (row 0 song_features) pref)).
  assert (Hnth : nth u (map lax_abs (map2 lax_sub (row 0 target)
                                       (map R (cells params)))) lax_zero
                 = S754_nan).
  { rewrite nth_map_in with (d' := lax_zero)
      by (rewrite map2_length, length_map; lia).
    rewrite nth_map2 with (d1 := lax_zero) (d2 := lax_zero)
      by (rewrite ?length_map; lia).
    rewrite nth_map_in with (d' := []) by lia.
    fold (row u params). unfold R.
    rewrite rating_nan by (assumption || congruence).
    now rewrite f32_sub_nan_r. }
  rewrite <- Hnth. apply nth_In.
  rewrite length_map, map2_length, length_map. lia.
Qed.

End NaN.

(** X11.  In binary32 a NaN among the preferences of a person is never
    cleared.  On arrays of agreeing shapes with at least one song, if the
    initial preferences of person [u] contain a NaN, the training cell still
    runs all its rounds and returns; every preference of [u] that was a NaN
    is a NaN in the parameters returned, and the final loss that the cell
    prints is NaN.  The gradient of that person is not made of NaN for that
    reason: [abs] hands the cotangent on negated at a residual that is a
    NaN, so the row of [u] in the gradient is the sum of the songs' features
    times [1/N]. *)
Theorem nan_is_never_cleared (n : nat) (lr : F32.t)
    (params target song_features : ndarray F32.t) (i a f u : nat) :
  has_shape params a f -> has_shape target i a ->
  has_shape song_features i f ->
  0 < i -> u < a ->
  has_nan (row u params) = true ->
  exists st out g,
    training_cell n lr params target song_features = Ok st /\
    rounds st = n /\
    stdout st = out ++ [FinalLoss S754_nan] /\
    has_nan (row u (st_params st)) = true /\
    (forall k, nth k (row u params) lax_zero = S754_nan ->
       nth k (row u (st_params st)) lax_zero = S754_nan) /\
    grad_loss params target song_features = Ok g /\
    row u g =
    sum_rows f
      (map (map (fun s => lax_mul s (lax_div lax_one (lax_of_nat (i * a)))))
           (cells song_features)).
Proof.
  intros Hp Ht Hs Hi Hu Hnan. apply has_nan_In in Hnan.
  destruct (has_shape_cells Hs) as [Hsl Hsr].
  destruct (has_shape_cells Ht) as [Htl Htr].
  pose proof (has_shape_row Hp Hu) as Hlp.
  assert (Hss : Forall (fun song => length song = length (row u params))
                  (cells song_features)) by now rewrite Hlp.
  unfold training_cell, range.
  destruct (training_loop_shaped lr Ht Hs n (k := 0) (init_state params))
    as (st & Hrun & Hshape & Hrounds & _ & _ & _ & Hrow);
    [exact Hp | reflexivity |].
  specialize (Hrow u Hu). cbn [init_state st_params rounds] in Hrow, Hrounds.
  destruct (@agent_steps_keep_nan n (i * a) lr (cells song_features)
              (column u target) (row u params) Hss)
    as [_ Hkeep].
  rewrite <- Hrow in Hkeep.
  assert (Hfinal : In S754_nan (row u (st_params st))).
  { apply In_nth with (d := lax_zero) in Hnan as (k & Hk & Hnth).
    rewrite <- (Hkeep k Hnth). apply nth_In.
    apply nth_nan_in_range, Hkeep, Hnth. }
  rewrite Hrun. cbn [bind].
  rewrite (loss_nan Hshape Ht Hs Hi Hu Hfinal). cbn [bind].
  pose proof (grad_loss_shaped Hp Ht Hs) as Hg.
  eexists _, _, _. split; [reflexivity|].
  unfold print; cbn [stdout st_params rounds].
  split; [exact Hrounds|]. split; [reflexivity|].
  split; [now apply has_nan_In|]. split; [exact Hkeep|].
  split; [exact Hg|].
  rewrite (grad_loss_row Hp Ht Hs Hu Hg), <- Hlp.
  apply agent_gradient_nan; [| exact Hss | exact Hnan].
  unfold column. rewrite length_map. lia.
Qed.

Lemma nan_is_never_cleared_witness :
  exists st out g,
    training_cell numrounds (lax_div (F32.of_Z 1) (F32.of_Z 16))
      (mk_ndarray 1 2 [[S754_nan; F32.of_Z 1]])
      (mk_ndarray 1 1 [[F32.of_Z 1]])
      (mk_ndarray 1 2 [[F32.of_Z 1; F32.of_Z 1]]) = Ok st /\
    rounds st = numrounds /\
    stdout st = out ++ [FinalLoss S754_nan] /\
    has_nan (row 0 (st_params st)) = true /\
    (forall k,
       nth k (row 0 (mk_ndarray 1 2 [[S754_nan; F32.of_Z 1]])) lax_zero
         = S754_nan ->
       nth k (row 0 (st_params st)) lax_zero = S754_nan) /\
    grad_loss (mk_ndarray 1 2 [[S754_nan; F32.of_Z 1]])
      (mk_ndarray 1 1 [[F32.of_Z 1]])
      (mk_ndarray 1 2 [[F32.of_Z 1; F32.of_Z 1]]) = Ok g /\
    row 0 g =
    sum_rows 2
      (map (map (fun s => lax_mul s (lax_div lax_one (lax_of_nat (1 * 1)))))
           (cells (mk_ndarray 1 2 [[F32.of_Z 1; F32.of_Z 1]]))).
Proof.
  apply (@nan_is_never_cleared numrounds (lax_div (F32.of_Z 1) (F32.of_Z 16))
           (mk_ndarray 1 2 [[S754_nan; F32.of_Z 1]])
           (mk_ndarray 1 1 [[F32.of_Z 1]])
           (mk_ndarray 1 2 [[F32.of_Z 1; F32.of_Z 1]]) 1 1 2 0);
    try lia; shape_tac.
Defined.

(** In that scenario one round leaves the NaN where it is and moves the
    other preference of the person from 1 to 15/16: the NaN does not
    spread. *)
Example nan_stays_in_its_entry :
  exists st,
    training_cell 1 (lax_div (F32.of_Z 1) (F32.of_Z 16))
      (mk_ndarray 1 2 [[S754_nan; F32.of_Z 1]])
      (mk_ndarray 1 1 [[F32.of_Z 1]])
      (mk_ndarray 1 2 [[F32.of_Z 1; F32.of_Z 1]]) = Ok st /\
    st_params st =
      mk_ndarray 1 2 [[S754_nan; lax_div (F32.of_Z 15) (F32.of_Z 16)]].
Proof. eexists. split; vm_compute; reflexivity. Qed.

(** ** Arrays without entries *)

Lemma concat_all_nil {A} (l : list (list A)) :
  Forall (fun r => r = []) l -> concat l = [].
Proof. induction 1 as [|r l -> _ IH]; simpl; auto. Qed.

(** X12.  In binary32 the loss of arrays of agreeing shapes that have no
    entry, because there is no song or no person, is NaN: [jnp.mean] divides
    a zero sum by a zero count. *)
Theorem loss_without_entries_is_nan
    (params target song_features : ndarray F32.t) (i a f : nat) :
  has_shape params a f -> has_shape target i a ->
  has_shape song_features i f ->
  i * a = 0 ->
  loss params target song_features = Ok S754_nan.
Proof.
  intros Hp Ht Hs Hz. rewrite (loss_shaped Hp Ht Hs), Hz. f_equal.
  destruct (has_shape_cells Ht) as [Htl Htr].
  rewrite concat_all_nil; [reflexivity|].
  apply Forall_forall. intros r Hr.
  apply in_map_iff in Hr as [d [<- Hd]].
  assert (Hlen : length d = 0).
  { apply Nat.eq_mul_0 in Hz as [-> | ->].
    - destruct (cells target); [destruct Hd | discriminate].
    - revert d Hd. apply Forall_forall.
      apply map2_rows_shape; [exact Htr|].
      destruct (has_shape_cells Hp) as [Hpl _]. rewrite <- Hpl.
      apply ratings_shape. }
  destruct d; [reflexivity | discriminate].
Qed.

Lemma loss_without_entries_is_nan_witness :
  loss (mk_ndarray 2 1 [[F32.of_Z 1]; [F32.of_Z 2]]) (mk_ndarray 0 2 [])
       (mk_ndarray 0 1 []) = Ok S754_nan.
Proof.
  apply (@loss_without_entries_is_nan
           (mk_ndarray 2 1 [[F32.of_Z 1]; [F32.of_Z 2]]) (mk_ndarray 0 2 [])
           (mk_ndarray 0 1 []) 0 2 1); shape_tac.
Defined.

(** ** The loss and the error of the parameters *)

Section ParameterError.

Local Open Scope Qc_scope.

Lemma dot_minus_r (v p q : list Qc) :
  length p = length q ->
  Spec.dot v (map2 Qcminus p q) = Spec.dot v p - Spec.dot v q.
Proof.
  revert p q; induction v as [|x v IH]; intros [|y p] [|z q] Hl;
    simpl in *; try discriminate; try ring.
  rewrite IH by lia. ring.
Qed.

Lemma zero_array_entry (r c x u : nat) :
  (x < r)%nat -> Spec.entry (zero_array r c) x u = 0.
Proof.
  intros Hx. unfold Spec.entry, zero_array. cbn [cells].
  rewrite nth_zeros by exact Hx. qc_ops. apply nth_repeat.
Qed.

Lemma loss_of_parameter_error
    (people_preferences people_params song_features song_ratings e pe
       : ndarray Qc) (i a f : nat) :
  has_shape song_features i f -> has_shape people_preferences a f ->
  has_shape people_params a f ->
  simulate_ratings song_features people_preferences = Ok song_ratings ->
  parameter_error people_preferences people_params = Ok e ->
  predict_all song_features e = Ok pe ->
  loss people_params song_ratings song_features =
  mean_abs_error pe (zero_array i a).
Proof.
  intros Hs Hpr Hp Hsim He Hpe.
  unfold simulate_ratings in Hsim.
  fold (predict_all song_features people_preferences) in Hsim.
  unfold parameter_error in He.
  pose proof (predict_all_has_shape Hs Hpr Hsim) as Ht.
  pose proof (jnp_sub_has_shape Hpr Hp He) as Hes.
  pose proof (predict_all_has_shape Hs Hes Hpe) as Hpes.
  assert (Hz : has_shape (zero_array i a) i a)
    by (apply has_shape_mk; apply zeros_shape).
  rewrite (loss_as_residuals Hp Ht Hs), (mean_abs_error_shaped Hpes Hz).
  f_equal. unfold Spec.mean_absolute_error.
  destruct Hpes as [_ [-> ->]]. f_equal.
  apply big_sum_ext. intros x Hx. apply big_sum_ext. intros u Hu.
  rewrite (predict_all_entry Hs Hpr Hsim Hx Hu).
  rewrite zero_array_entry by exact Hx.
  rewrite (predict_all_entry Hs Hes Hpe Hx Hu).
  rewrite (jnp_sub_shaped Hpr Hp) in He. injection He as <-.
  unfold Spec.predicted at 3, row. cbn [cells]. qc_ops.
  rewrite nth_map2_rows.
  fold (row u people_preferences) (row u people_params).
  rewrite dot_minus_r
    by now rewrite (has_shape_row Hpr Hu), (has_shape_row Hp Hu).
  f_equal. unfold Spec.predicted, row. ring.
Qed.

End ParameterError.

(** X13.  On ratings simulated from preferences, the loss of any parameters
    depends on them only through their error
    [people_preferences - people_params]: it is the mean absolute value of
    the ratings predicted from that error. *)
Theorem loss_is_the_predicted_parameter_error
    (people_preferences people_params song_features song_ratings e pe
       : ndarray Qc) (i a f : nat) :
  has_shape song_features i f -> has_shape people_preferences a f ->
  has_shape people_params a f ->
  simulate_ratings song_features people_preferences = Ok song_ratings ->
  parameter_error people_preferences people_params = Ok e ->
  predict_all song_features e = Ok pe ->
  loss people_params song_ratings song_features =
  mean_abs_error pe (zero_array i a).
Proof.
  intros Hs Hpr Hp Hsim He Hpe.
  exact (loss_of_parameter_error Hs Hpr Hp Hsim He Hpe).
Qed.

Lemma loss_is_the_predicted_parameter_error_witness :
  loss other_params
       (mk_ndarray 3 2 [[Qz 2; Qz (-1)]; [Qz 3; Qz 4]; [Qz 5; Qz 3]])
       example_songs =
  mean_abs_error
    (mk_ndarray 3 2 [[Qz 0; Qz (-6)]; [Qz 0; Qz 11]; [Qz 0; Qz 5]])
    (zero_array 3 2).
Proof.
  apply (@loss_is_the_predicted_parameter_error
           example_params other_params example_songs
           (mk_ndarray 3 2 [[Qz 2; Qz (-1)]; [Qz 3; Qz 4]; [Qz 5; Qz 3]])
           (mk_ndarray 2 2 [[Qz 0; Qz 0]; [Qz (-6); Qz 11]])
           (mk_ndarray 3 2 [[Qz 0; Qz (-6)]; [Qz 0; Qz 11]; [Qz 0; Qz 5]])
           3 2 2); shape_tac.
Defined.

(** ** What the cells print *)

Lemma for_loop_app {T : Type}
    (body : nat -> run_state (T := T) -> result run_state)
    (l1 l2 : list nat) (st : run_state) :
  for_loop body (l1 ++ l2) st =
  (st' <- for_loop body l1 st ;; for_loop body l2 st').
Proof.
  revert st; induction l1 as [|x l1 IH]; intros st; cbn [app for_loop bind].
  - reflexivity.
  - destruct (body x st) as [st1|e]; cbn [bind]; [apply IH | reflexivity].
Qed.

Lemma iterate_add {T : Type} (n m : nat)
    (step : ndarray T -> result (ndarray T)) (p : ndarray T) :
  iterate (n + m) step p = (p' <- iterate n step p ;; iterate m step p').
Proof.
  revert p; induction n as [|n IH]; intros p; cbn [Nat.add iterate bind].
  - reflexivity.
  - destruct (step p) as [p1|e]; cbn [bind]; [apply IH | reflexivity].
Qed.

Lemma reported_multiple (n : nat) :
  reported n = true -> n = 50 * reported_rounds n.
Proof.
  unfold reported. intros Hr. apply Nat.eqb_eq in Hr.
  rewrite reported_rounds_count.
  pose proof (Nat.div_mod_eq n 50) as Hn. rewrite Hr, Nat.add_0_r in Hn.
  replace (n + 49) with (49 + (n / 50) * 50) by lia.
  rewrite Nat.div_add by lia. cbn [Nat.add]. simpl (49 / 50). lia.
Qed.

Lemma not_reported_multiple (n j : nat) :
  reported n = false -> 50 * j <> n.
Proof.
  unfold reported. intros Hr Hj. apply Nat.eqb_neq in Hr. apply Hr.
  subst n. rewrite Nat.mul_comm. apply Nat.Div0.mod_mul.
Qed.

Section Printed.

Context {T : Type} `{Scalar T}.

Variables (lr : T) (target song_data : ndarray T) (i a f : nat).
Hypothesis Htarget : has_shape target i a.
Hypothesis Hsongs : has_shape song_data i f.

Lemma training_loop_prints (n : nat) (params : ndarray T) :
  has_shape params a f ->
  exists st,
    for_loop (training_body lr target song_data) (range n)
             (init_state params) = Ok st /\
    has_shape (st_params st) a f /\
    iterate n (descent_step lr target song_data) params
      = Ok (st_params st) /\
    length (stdout st) = reported_rounds n /\
    forall j, 50 * j < n ->
      exists p l,
        iterate (50 * j) (descent_step lr target song_data) params = Ok p /\
        loss p target song_data = Ok l /\
        nth_error (stdout st) j = Some (IterationLoss (50 * j) l).
Proof.
  intros Hp. induction n as [|n IH].
  - exists (init_state params). cbn [range seq for_loop iterate].
    split; [reflexivity|]. split; [exact Hp|]. split; [reflexivity|].
    split; [reflexivity|]. intros j Hj. lia.
  - destruct IH as (st & Hrun & Hshape & Hit & Hlen & Hout).
    unfold range in *. rewrite seq_S, for_loop_app, Hrun.
    cbn [bind Nat.add for_loop]. unfold training_body.
    destruct (gradient_step_shaped lr st Hshape Htarget Hsongs)
      as (l & g & p & Hl & Hg & _ & Hsub & Hps & Hstep).
    rewrite Hstep. cbn [bind].
    assert (Hnext : iterate (S n) (descent_step lr target song_data) params
                    = Ok p).
    { replace (S n) with (n + 1) by lia. rewrite iterate_add, Hit.
      cbn [bind iterate]. unfold descent_step. rewrite Hg. cbn [bind].
      now rewrite Hsub. }
    fold (range n) in Hlen. fold (range (S n)).
    pose proof (reported_rounds_succ n) as Hrr.
    destruct (reported n) eqn:Hr; cbn [bind]; eexists; (split; [reflexivity|]);
      cbn [end_round print st_params stdout].
    + split; [exact Hps|]. split; [exact Hnext|].
      split; [rewrite length_app; cbn [length]; lia|].
      intros j Hj. pose proof (@reported_multiple n Hr) as Hn.
      destruct (Nat.eq_dec (50 * j) n) as [Heq | Hne].
      * exists (st_params st), l. rewrite Heq.
        split; [exact Hit|]. split; [exact Hl|].
        rewrite nth_error_app2 by lia.
        replace (j - length (stdout st)) with 0 by lia. reflexivity.
      * destruct (Hout j ltac:(lia)) as (p0 & l0 & H1 & H2 & H3).
        exists p0, l0. split; [exact H1|]. split; [exact H2|].
        rewrite nth_error_app1; [exact H3|].
        apply nth_error_Some. now rewrite H3.
    + split; [exact Hps|]. split; [exact Hnext|]. split; [lia|].
      intros j Hj. pose proof (@not_reported_multiple n j Hr).
      apply Hout. lia.
Qed.

Lemma personalization_loop_prints (n : nat) (params : ndarray T) :
  has_shape params a f ->
  exists st,
    for_loop (personalization_body lr target song_data) (range n)
             (init_state params) = Ok st /\
    has_shape (st_params st) a f /\
    iterate (n + reported_rounds n) (descent_step lr target song_data) params
      = Ok (st_params st) /\
    length (stdout st) = reported_rounds n /\
    forall j, 50 * j < n ->
      exists p l,
        iterate (51 * j + 1) (descent_step lr target song_data) params
          = Ok p /\
        loss p target song_data = Ok l /\
        nth_error (stdout st) j = Some (IndexLoss (50 * j) l).
Proof.
  intros Hp. induction n as [|n IH].
  - exists (init_state params). cbn [range seq for_loop iterate].
    split; [reflexivity|]. split; [exact Hp|]. split; [reflexivity|].
    split; [reflexivity|]. intros j Hj. lia.
  - destruct IH as (st & Hrun & Hshape & Hit & Hlen & Hout).
    unfold range in *. rewrite seq_S, for_loop_app, Hrun.
    cbn [bind for_loop]. rewrite Nat.add_0_l. unfold personalization_body.
    destruct (gradient_step_shaped lr st Hshape Htarget Hsongs)
      as (l & g & p & Hl & Hg & _ & Hsub & Hps & Hstep).
    rewrite Hstep. cbn [bind].
    fold (range n) in Hlen, Hit. fold (range (S n)).
    assert (Hnext : iterate (n + reported_rounds n + 1)
                      (descent_step lr target song_data) params = Ok p).
    { rewrite iterate_add, Hit.
      cbn [bind iterate]. unfold descent_step. rewrite Hg. cbn [bind].
      now rewrite Hsub. }
    pose proof (reported_rounds_succ n) as Hrr.
    destruct (reported n) eqn:Hr.
    + match type of Hstep with _ = Ok (_, ?s) => set (st1 := s) in * end.
      destruct (gradient_step_shaped lr st1 Hps Htarget Hsongs)
        as (l2 & g2 & p2 & Hl2 & Hg2 & _ & Hsub2 & Hps2 & Hstep2).
      rewrite Hstep2. cbn [bind]. eexists. split; [reflexivity|].
      subst st1. cbn [end_round print st_params stdout] in *.
      split; [exact Hps2|]. split.
      { replace (S n + reported_rounds (S n))
          with ((n + reported_rounds n + 1) + 1) by lia.
        rewrite iterate_add, Hnext.
        cbn [bind iterate]. unfold descent_step. rewrite Hg2. cbn [bind].
        now rewrite Hsub2. }
      split; [rewrite length_app; cbn [length]; lia|].
      intros j Hj. pose proof (@reported_multiple n Hr) as Hn.
      destruct (Nat.eq_dec (50 * j) n) as [Heq | Hne].
      * exists p, l2. rewrite Heq.
        split; [|split; [exact Hl2|]].
        -- replace (51 * j + 1) with (n + reported_rounds n + 1) by lia.
           exact Hnext.
        -- rewrite nth_error_app2 by lia.
           replace (j - length (stdout st)) with 0 by lia. reflexivity.
      * destruct (Hout j ltac:(lia)) as (p0 & l0 & H1 & H2 & H3).
        exists p0, l0. split; [exact H1|]. split; [exact H2|].
        rewrite nth_error_app1; [exact H3|].
        apply nth_error_Some. now rewrite H3.
    + cbn [bind]. eexists. split; [reflexivity|].
      cbn [end_round print st_params stdout].
      split; [exact Hps|]. split.
      { replace (S n + reported_rounds (S n))
          with (n + reported_rounds n + 1) by lia. exact Hnext. }
      split; [lia|].
      intros j Hj. pose proof (@not_reported_multiple n j Hr).
      apply Hout. lia.
Qed.

End Printed.

(** X14.  The training cell reports the loss before the update of the round:
    on arrays of agreeing shapes its output line number [j] is the loss at
    the parameters that [50 * j] updates produce, labelled with the round
    [50 * j], and its last line is the loss at the parameters it returns. *)
Theorem training_prints_the_loss_before_the_update {T : Type} `{Scalar T}
    (n : nat) (lr : T)
    (params ratings song_features : ndarray T) (i a f : nat) :
  has_shape params a f -> has_shape ratings i a ->
  has_shape song_features i f ->
  exists st final,
    training_cell n lr params ratings song_features = Ok st /\
    (forall j, 50 * j < n ->
       exists p l,
         iterate (50 * j) (descent_step lr ratings song_features) params
           = Ok p /\
         loss p ratings song_features = Ok l /\
         nth_error (stdout st) j = Some (IterationLoss (50 * j) l)) /\
    loss (st_params st) ratings song_features = Ok final /\
    nth_error (stdout st) ((n + 49) / 50) = Some (FinalLoss final).
Proof.
  intros Hp Ht Hs. unfold training_cell.
  destruct (training_loop_prints lr Ht Hs n Hp)
    as (st & Hrun & Hshape & _ & Hlen & Hout).
  rewrite Hrun. cbn [bind].
  pose proof (loss_shaped Hshape Ht Hs) as Hl. rewrite Hl. cbn [bind].
  eexists _, _. split; [reflexivity|].
  unfold print; cbn [stdout st_params].
  rewrite reported_rounds_count in Hlen.
  split; [|split; [exact Hl|]].
  - intros j Hj. destruct (Hout j Hj) as (p & l & H1 & H2 & H3).
    exists p, l. split; [exact H1|]. split; [exact H2|].
    rewrite nth_error_app1; [exact H3|].
    apply nth_error_Some. now rewrite H3.
  - rewrite nth_error_app2 by lia. rewrite Hlen, Nat.sub_diag. reflexivity.
Qed.

Lemma training_prints_the_loss_before_the_update_witness :
  exists st final,
    training_cell numrounds learning_rate example_params far_ratings
      example_songs = Ok st /\
    (forall j, 50 * j < numrounds ->
       exists p l,
         iterate (50 * j)
           (descent_step learning_rate far_ratings example_songs)
           example_params = Ok p /\
         loss p far_ratings example_songs = Ok l /\
         nth_error (stdout st) j = Some (IterationLoss (50 * j) l)) /\
    loss (st_params st) far_ratings example_songs = Ok final /\
    nth_error (stdout st) ((numrounds + 49) / 50) = Some (FinalLoss final).
Proof.
  apply (@training_prints_the_loss_before_the_update Qc _ numrounds
           learning_rate example_params far_ratings example_songs 3 2 2);
    shape_tac.
Defined.

(** X15.  The personalization cell reports another loss than the training
    cell does: on arrays of agreeing shapes its output line number [j],
    labelled with the round [50 * j], is the loss at the parameters that
    [51 * j + 1] updates produce, that is after the first update of that
    round and not before it; its last line is the loss at the parameters it
    returns. *)
Theorem personalization_prints_the_loss_after_an_update
    {T : Type} `{Scalar T} (n r : nat) (lr : T)
    (new_params new_ratings song_features : ndarray T) (i f m : nat) :
  has_shape song_features i f ->
  has_shape new_params m f -> has_shape new_ratings r m -> r <= i ->
  exists st final,
    personalization_cell n lr r new_params new_ratings song_features = Ok st /\
    (forall j, 50 * j < n ->
       exists p l,
         iterate (51 * j + 1)
           (descent_step lr new_ratings (slice_rows r song_features))
           new_params = Ok p /\
         loss p new_ratings (slice_rows r song_features) = Ok l /\
         nth_error (stdout st) j = Some (IndexLoss (50 * j) l)) /\
    loss (st_params st) new_ratings (slice_rows r song_features) = Ok final /\
    nth_error (stdout st) ((n + 49) / 50) = Some (FinalLoss final).
Proof.
  intros Hs Hnp Hnr Hr. unfold personalization_cell.
  pose proof (slice_rows_has_shape Hs Hr) as Hslice.
  destruct (personalization_loop_prints lr Hnr Hslice n Hnp)
    as (st & Hrun & Hshape & _ & Hlen & Hout).
  cbv zeta. rewrite Hrun. cbn [bind].
  pose proof (loss_shaped Hshape Hnr Hslice) as Hl. rewrite Hl. cbn [bind].
  eexists _, _. split; [reflexivity|].
  unfold print; cbn [stdout st_params].
  rewrite reported_rounds_count in Hlen.
  split; [|split; [exact Hl|]].
  - intros j Hj. destruct (Hout j Hj) as (p & l & H1 & H2 & H3).
    exists p, l. split; [exact H1|]. split; [exact H2|].
    rewrite nth_error_app1; [exact H3|].
    apply nth_error_Some. now rewrite H3.
  - rewrite nth_error_app2 by lia. rewrite Hlen, Nat.sub_diag. reflexivity.
Qed.

Lemma personalization_prints_the_loss_after_an_update_witness :
  exists st final,
    personalization_cell numrounds learning_rate new_ratings
      example_params far_ratings example_songs = Ok st /\
    (forall j, 50 * j < numrounds ->
       exists p l,
         iterate (51 * j + 1)
           (descent_step learning_rate far_ratings
              (slice_rows new_ratings example_songs))
           example_params = Ok p /\
         loss p far_ratings (slice_rows new_ratings example_songs) = Ok l /\
         nth_error (stdout st) j = Some (IndexLoss (50 * j) l)) /\
    loss (st_params st) far_ratings (slice_rows new_ratings example_songs)
      = Ok final /\
    nth_error (stdout st) ((numrounds + 49) / 50) = Some (FinalLoss final).
Proof.
  apply (@personalization_prints_the_loss_after_an_update Qc _ numrounds
           new_ratings learning_rate example_params far_ratings example_songs
           3 2 2);
    try (unfold new_ratings; lia); shape_tac.
Defined.
